(** * Recipe chat: segmenter, conversation store, submission controller,
      gateway and delegation step

    A shallow embedding of the TypeScript sources: the page component and
    the route handler [POST] (both under [src/app/page.tsx] here),
    [src/mastra/workflows/recipe-workflow.ts] and [src/types/chat.ts],
    followed by the properties the specification states about them. *)

From Stdlib Require Import String Ascii.
From Stdlib Require Import List NArith ZArith Bool Arith Lia.
From Stdlib Require DecimalString DecimalNat.
Import ListNotations.

Set Implicit Arguments.
Set Warnings "-register-all".

(** ** JavaScript strings

    A JavaScript string is a sequence of UTF-16 code units.  [String.length],
    [trim], [split] and the regular expressions of the source (none has the
    [u] flag) all work on code units, so a string is a list of code units. *)

Module JS.

Definition char := N.
Definition jsstring := list char.

(** ASCII literals of the source, written as Rocq strings. *)
Definition lit (s : string) : jsstring :=
  map N_of_ascii (list_ascii_of_string s).

Definition LF : char := 10%N.
Definition CR : char := 13%N.

(** [\s] of a regular expression: WhiteSpace and LineTerminator of
    ECMA-262.  [String.prototype.trim] strips exactly the same set. *)
Definition is_space (c : char) : bool :=
  ((9 <=? c) && (c <=? 13)         (* TAB LF VT FF CR *)
   || (c =? 32)                    (* SP *)
   || (c =? 160)                   (* NBSP *)
   || (c =? 5760)                  (* U+1680 *)
   || ((8192 <=? c) && (c <=? 8202)) (* U+2000 .. U+200A *)
   || (c =? 8232) || (c =? 8233)   (* LS PS *)
   || (c =? 8239)                  (* U+202F *)
   || (c =? 8287)                  (* U+205F *)
   || (c =? 12288)                 (* U+3000 *)
   || (c =? 65279))%N.             (* U+FEFF *)

(** What [.] of a regular expression refuses (no [s] flag): LF CR LS PS. *)
Definition is_line_terminator (c : char) : bool :=
  ((c =? 10) || (c =? 13) || (c =? 8232) || (c =? 8233))%N.

(** [\d] : the ASCII digits. *)
Definition is_digit (c : char) : bool := ((48 <=? c) && (c <=? 57))%N.

Definition HASH : char := 35%N.
Definition STAR : char := 42%N.
Definition DASH : char := 45%N.
Definition DOT : char := 46%N.

Fixpoint dropWhile (p : char -> bool) (s : jsstring) : jsstring :=
  match s with
  | [] => []
  | c :: rest => if p c then dropWhile p rest else s
  end.

Fixpoint takeWhile (p : char -> bool) (s : jsstring) : jsstring :=
  match s with
  | [] => []
  | c :: rest => if p c then c :: takeWhile p rest else []
  end.

Definition trimStart (s : jsstring) : jsstring := dropWhile is_space s.
Definition trimEnd (s : jsstring) : jsstring := rev (dropWhile is_space (rev s)).

(** [String.prototype.trim]. *)
Definition trim (s : jsstring) : jsstring := trimEnd (trimStart s).

(** [===] on strings. *)
Fixpoint eqb (a b : jsstring) : bool :=
  match a, b with
  | [], [] => true
  | x :: a', y :: b' => (x =? y)%N && eqb a' b'
  | _, _ => false
  end.

(** [a ?? b] on an optional string. *)
Definition nullish (A : Type) (a : option A) (b : A) : A :=
  match a with Some v => v | None => b end.

(** [Array.prototype.join]. *)
Fixpoint join (sep : jsstring) (l : list jsstring) : jsstring :=
  match l with
  | [] => []
  | [x] => x
  | x :: rest => x ++ sep ++ join sep rest
  end.

(** A value [JSON.parse] or [Request.json] can return.  The payload of a
    number plays no part in the code modelled here. *)
Inductive JSON : Type :=
| JNull
| JBool (b : bool)
| JNum (n : Z)
| JStr (s : jsstring)
| JArr (items : list JSON)
| JObj (fields : list (jsstring * JSON)).

(** [obj[key]] on a parsed object: [None] stands for [undefined]. *)
Fixpoint lookup (key : jsstring) (fields : list (jsstring * JSON)) : option JSON :=
  match fields with
  | [] => None
  | (k, v) :: rest => if eqb k key then Some v else lookup key rest
  end.

(** What a [catch] clause can tell about the value it caught:
    [err instanceof Error] and then [err.message]. *)
Inductive Thrown : Type :=
| ErrorObject (message : jsstring)
| NotAnError.

End JS.

Import JS.

(** ** Message Content Segmenter ([parseMessageContent], page.tsx) *)

Module Segmenter.

Inductive MessageSegment : Type :=
| heading (level : nat) (text : jsstring)
| paragraph (text : jsstring)
| list_ (items : list jsstring)
| divider.

(** [content.split(/\r?\n/)]: a cut at every LF, the CR right before it
    belonging to the separator.  A CR that no LF follows stays in its line.
    The empty string splits into one empty line. *)
Fixpoint split_lines (s : jsstring) : list jsstring :=
  match s with
  | [] => [[]]
  | c :: rest =>
      if (c =? LF)%N then [] :: split_lines rest
      else
        match rest with
        | c' :: rest' =>
            if (c =? CR)%N && (c' =? LF)%N then [] :: split_lines rest'
            else
              match split_lines rest with
              | l :: ls => (c :: l) :: ls
              | [] => [[c]]
              end
        | [] => [[c]]
        end
  end.

(** [line.match(re)] for the heading expression of the source: anchored at
    the start, a group of one to four [#], then [\s+], then a group of any
    characters but line terminators, anchored at the end.  The result holds
    the two groups (the length of the run of [#], the remainder).  The
    run of [#] is the whole leading run (a fifth [#], or anything but white
    space after it, fails the match), [\s+] takes the whole run of white
    space, and the last group needs the rest to hold no line terminator;
    backtracking finds no other match. *)
Definition headingMatch (line : jsstring) : option (nat * jsstring) :=
  let hashes := takeWhile (N.eqb HASH) line in
  let after := dropWhile (N.eqb HASH) line in
  let n := length hashes in
  if (1 <=? n) && (n <=? 4) then
    match after with
    | c :: _ =>
        if is_space c then
          let text := dropWhile is_space after in
          if existsb is_line_terminator text then None else Some (n, text)
        else None
    | [] => None
    end
  else None.

(** [/^[-*]\s+/.test(line)] and [line.replace(/^[-*]\s+/, "")] in one:
    [Some] of the replaced text when the test succeeds. *)
Definition bulletItem (line : jsstring) : option jsstring :=
  match line with
  | m :: (c :: _) as after =>
      if ((m =? DASH) || (m =? STAR))%N && is_space c
      then Some (dropWhile is_space after)
      else None
  | _ => None
  end.

(** [/^\d+\.\s+/.test(line)] and [line.replace(/^\d+\.\s+/, "")] in one. *)
Definition orderedItem (line : jsstring) : option jsstring :=
  match takeWhile is_digit line, dropWhile is_digit line with
  | _ :: _, d :: (c :: _) as after =>
      if (d =? DOT)%N && is_space c
      then Some (dropWhile is_space after)
      else None
  | _, _ => None
  end.

(** The two mutable variables of the closure. *)
Record Acc : Type := mkAcc {
  segments : list MessageSegment;
  listBuffer : list jsstring
}.

Definition flushList (a : Acc) : Acc :=
  match listBuffer a with
  | [] => a
  | _ :: _ => mkAcc (segments a ++ [list_ (listBuffer a)]) []
  end.

Definition push (seg : MessageSegment) (a : Acc) : Acc :=
  mkAcc (segments a ++ [seg]) (listBuffer a).

Definition pushItem (item : jsstring) (a : Acc) : Acc :=
  mkAcc (segments a) (listBuffer a ++ [item]).

(** The callback of [lines.forEach]. *)
Definition processLine (a : Acc) (rawLine : jsstring) : Acc :=
  let line := trim rawLine in
  match line with
  | [] => flushList a
  | _ :: _ =>
      if JS.eqb line (lit "---") then push divider (flushList a)
      else
        match headingMatch line with
        | Some (level, text) => push (heading level text) (flushList a)
        | None =>
            match bulletItem line with
            | Some item => pushItem item a
            | None =>
                match orderedItem line with
                | Some item => pushItem item a
                | None => push (paragraph line) (flushList a)
                end
            end
        end
  end.

Definition parseLines (lines : list jsstring) : list MessageSegment :=
  segments (flushList (fold_left processLine lines (mkAcc [] []))).

Definition parseMessageContent (content : jsstring) : list MessageSegment :=
  parseLines (split_lines content).

End Segmenter.

Import Segmenter.


(** ** Shared types ([src/types/chat.ts]) *)

Module Chat.

Inductive ChatRole : Type := user | assistant | system.

(** [chatRoles], as the strings [z.enum] compares with. *)
Definition chatRoles : list (jsstring * ChatRole) :=
  [(lit "user", user); (lit "assistant", assistant); (lit "system", system)].

Record ChatMessage : Type := mkChatMessage {
  role : ChatRole;
  content : jsstring
}.

Record ChatUsage : Type := mkChatUsage {
  inputTokens : option Z;
  outputTokens : option Z;
  totalTokens : option Z;
  cachedInputTokens : option Z;
  reasoningTokens : option Z
}.

Record ChatCompletion : Type := mkChatCompletion {
  message : ChatMessage;
  usage : option ChatUsage;
  runId : option jsstring
}.

End Chat.

(** ** Agent Delegation Step ([delegateToAgent], recipe-workflow.ts) *)

Module Workflow.

(** What the step reads of the value [recipeAgent.generate] resolves to. *)
Record AgentResponse : Type := mkAgentResponse {
  id : option jsstring
}.

Record AgentResult : Type := mkAgentResult {
  text : option jsstring;
  usage : option Chat.ChatUsage;
  response : option AgentResponse;
  traceId : option jsstring
}.

(** [MessageInput], as far as the step builds it: role and content. *)
Definition MessageInput : Type := (Chat.ChatRole * jsstring)%type.

Definition agentMessages (messages : list Chat.ChatMessage) : list MessageInput :=
  map (fun m => (Chat.role m, Chat.content m)) messages.

(** [result.response?.id ?? result.traceId]. *)
Definition deriveRunId (result : AgentResult) : option jsstring :=
  match response result with
  | Some r => match id r with
              | Some i => Some i
              | None => traceId result
              end
  | None => traceId result
  end.

(** [execute]: the agent is the external collaborator [generate], which
    resolves to a result or rejects. *)
Definition execute (generate : list MessageInput -> Thrown + AgentResult)
    (messages : list Chat.ChatMessage) : Thrown + Chat.ChatCompletion :=
  match generate (agentMessages messages) with
  | inl e => inl e
  | inr result =>
      let text := nullish (text result) [] in
      inr (Chat.mkChatCompletion
             (Chat.mkChatMessage Chat.assistant text)
             (usage result)
             (deriveRunId result))
  end.

End Workflow.

(** ** Conversation store and submission controller ([Home], page.tsx) *)

Module Page.

Record UIMessage : Type := mkUIMessage {
  id : jsstring;
  role : Chat.ChatRole;
  content : jsstring;
  usage : option Chat.ChatUsage
}.

(** The string literals of the component, as UTF-16 code units. *)
Definition WELCOME_CONTENT : jsstring :=
  [20320; 22909; 65281; 21578; 35785; 25105; 20170; 22825; 24819; 21507;
   20160; 20040; 65292; 25105; 26469; 20026; 20320; 23450; 21046; 33756;
   35889; 32; 55356; 57203]%N.
Definition FALLBACK_CONTENT : jsstring :=
  [25265; 27465; 65292; 25105; 26242; 26102; 26080; 27861; 32473; 20986;
   31572; 26696; 65292; 35831; 31245; 21518; 37325; 35797; 12290]%N.
Definition SERVICE_UNAVAILABLE : jsstring :=
  [26381; 21153; 26242; 26102; 19981; 21487; 29992]%N.
Definition SEND_FAILED : jsstring :=
  [21457; 36865; 22833; 36133; 65292; 35831; 37325; 35797; 12290]%N.

(** What the component takes from its surroundings. *)
Record Env : Type := mkEnv {
  (** [typeof window !== "undefined"] *)
  hasWindow : bool;
  (** the value the n-th call of [generateId] returns *)
  randomId : nat -> jsstring;
  (** [JSON.parse]; [None] when it throws *)
  JSON_parse : jsstring -> option JSON;
  (** [JSON.stringify] of a conversation *)
  JSON_stringify : list UIMessage -> jsstring;
  (** an element of the parsed array, seen through the unchecked
      [as UIMessage[]] *)
  asUIMessage : JSON -> UIMessage;
  (** the message of the TypeError that [in] raises on a primitive *)
  inTypeError : jsstring
}.

(** The [useState] cells, the entry of [localStorage] under [STORAGE_KEY]
    ([None]: [getItem] returns [null]) and the number of identifiers drawn
    so far, by the handlers or by a render (which evaluates the argument of
    [useState] again and drops it). *)
Record State : Type := mkState {
  messages : list UIMessage;
  input : jsstring;
  isLoading : bool;
  error : option jsstring;
  isHydrated : bool;
  storage : option jsstring;
  drawn : nat
}.

Definition setMessages (v : list UIMessage) (st : State) : State :=
  mkState v (input st) (isLoading st) (error st) (isHydrated st) (storage st) (drawn st).
Definition setInput (v : jsstring) (st : State) : State :=
  mkState (messages st) v (isLoading st) (error st) (isHydrated st) (storage st) (drawn st).
Definition setIsLoading (v : bool) (st : State) : State :=
  mkState (messages st) (input st) v (error st) (isHydrated st) (storage st) (drawn st).
Definition setError (v : option jsstring) (st : State) : State :=
  mkState (messages st) (input st) (isLoading st) v (isHydrated st) (storage st) (drawn st).
Definition setIsHydrated (v : bool) (st : State) : State :=
  mkState (messages st) (input st) (isLoading st) (error st) v (storage st) (drawn st).
Definition setItem (v : jsstring) (st : State) : State :=
  mkState (messages st) (input st) (isLoading st) (error st) (isHydrated st) (Some v) (drawn st).

Definition generateId (E : Env) (st : State) : jsstring * State :=
  (randomId E (drawn st),
   mkState (messages st) (input st) (isLoading st) (error st) (isHydrated st)
           (storage st) (S (drawn st))).

Definition welcome (i : jsstring) : UIMessage :=
  mkUIMessage i Chat.assistant WELCOME_CONTENT None.

Definition createWelcomeMessage (E : Env) (st : State) : UIMessage * State :=
  let (i, st1) := generateId E st in (welcome i, st1).

(** The state after the [useState] initialisers of the first render, over
    a given content of the store. *)
Definition initialState (E : Env) (stored : option jsstring) : State :=
  let st := mkState [] [] false None false stored 0 in
  let (w, st1) := createWelcomeMessage E st in
  setMessages [w] st1.

(** How a block ends: normally, or by a thrown value. *)
Inductive Completion : Type :=
| Normal (st : State)
| Throw (e : Thrown) (st : State).

Definition try_catch (body : Completion) (handler : Thrown -> State -> Completion)
  : Completion :=
  match body with
  | Normal st => Normal st
  | Throw e st => handler e st
  end.

Definition try_finally (body : Completion) (fin : State -> State) : Completion :=
  match body with
  | Normal st => Normal (fin st)
  | Throw e st => Throw e (fin st)
  end.

(** The first effect: load the history kept in [localStorage]. *)
Definition hydrate (E : Env) (st : State) : Completion :=
  if negb (hasWindow E) then Normal st
  else
    try_finally
      (try_catch
         (match storage st with
          | None => Normal st
          | Some [] => Normal st
          | Some cached =>
              match JSON_parse E cached with
              | None =>
                  (* the [catch] clause does not look at what was thrown *)
                  Throw (ErrorObject (lit "SyntaxError")) st
              | Some (JArr (x :: rest)) =>
                  Normal (setMessages (map (asUIMessage E) (x :: rest)) st)
              | Some _ =>
                  let (w, st1) := createWelcomeMessage E st in
                  Normal (setMessages [w] st1)
              end
          end)
         (fun _ st' =>
            let (w, st1) := createWelcomeMessage E st' in
            Normal (setMessages [w] st1)))
      (setIsHydrated true).

(** [load()] of the specification: first render, then the first effect. *)
Definition load (E : Env) (stored : option jsstring) : Completion :=
  hydrate E (initialState E stored).

(** The second effect: write the conversation back after a change. *)
Definition persist (E : Env) (st : State) : State :=
  if negb (isHydrated st) || negb (hasWindow E) then st
  else setItem (JSON_stringify E (messages st)) st.

(** The payload of the response, as the handler reads it.  A primitive
    makes [in] throw; of an object the handler reads [error] (the key may be
    there with a [null] under it), [message.role], [message.content],
    [usage] and [runId]. *)
Record PayloadMessage : Type := mkPayloadMessage {
  p_role : option Chat.ChatRole;
  p_content : option jsstring
}.

Record PayloadObject : Type := mkPayloadObject {
  p_error : option (option jsstring);
  p_message : option PayloadMessage;
  p_usage : option Chat.ChatUsage;
  p_runId : option jsstring
}.

Inductive Payload : Type :=
| Primitive
| Object_ (o : PayloadObject).

(** How the two awaits of the handler end. *)
Inductive FetchOutcome : Type :=
| FetchRejected (e : Thrown)
| JsonRejected (e : Thrown)
| Responded (payload : Payload).

(** What the continuation of [handleSubmit] keeps of the render it started
    in. *)
Record Pending : Type := mkPending {
  userMessage : UIMessage;
  optimisticMessages : list UIMessage
}.

(** The body of the request. *)
Definition requestMessages (p : Pending) : list Chat.ChatMessage :=
  map (fun m => Chat.mkChatMessage (role m) (content m)) (optimisticMessages p).

Definition isEmpty (s : jsstring) : bool :=
  match s with [] => true | _ :: _ => false end.

(** [handleSubmit] up to its first [await]: the new state and, when a
    request is sent, what the continuation keeps. *)
Definition handleSubmit_start (E : Env) (st : State) : State * option Pending :=
  if isEmpty (trim (input st)) || isLoading st then (st, None)
  else
    let (i, st1) := generateId E st in
    let userMessage := mkUIMessage i Chat.user (trim (input st)) None in
    let optimisticMessages := messages st ++ [userMessage] in
    (setIsLoading true
       (setError None (setInput [] (setMessages optimisticMessages st1))),
     Some (mkPending userMessage optimisticMessages)).

(** [payload.message?.role] and [payload.message?.content]. *)
Definition messageRole (o : PayloadObject) : option Chat.ChatRole :=
  match p_message o with Some m => p_role m | None => None end.
Definition messageContent (o : PayloadObject) : option jsstring :=
  match p_message o with Some m => p_content m | None => None end.

(** The [try] block after the awaits. *)
Definition handleSubmit_try (E : Env) (p : Pending) (r : FetchOutcome)
    (st : State) : Completion :=
  match r with
  | FetchRejected e => Throw e st
  | JsonRejected e => Throw e st
  | Responded Primitive => Throw (ErrorObject (inTypeError E)) st
  | Responded (Object_ o) =>
      match p_error o with
      | Some e => Throw (ErrorObject (nullish e SERVICE_UNAVAILABLE)) st
      | None =>
          let (i, st1) :=
            match p_runId o with
            | Some r => (r, st)
            | None => generateId E st
            end in
          let assistantMessage :=
            mkUIMessage i
              (nullish (messageRole o) Chat.assistant)
              (nullish (messageContent o) FALLBACK_CONTENT)
              (p_usage o) in
          Normal (setMessages (optimisticMessages p ++ [assistantMessage]) st1)
      end
  end.

Definition handleSubmit_catch (p : Pending) (err : Thrown) (st : State)
  : Completion :=
  let message :=
    match err with
    | ErrorObject m => m
    | NotAnError => SEND_FAILED
    end in
  let keep msg := negb (JS.eqb (id msg) (id (userMessage p))) in
  Normal (setInput (content (userMessage p))
            (setMessages (filter keep (messages st))
               (setError (Some message) st))).

(** [handleSubmit] from the first [await] on, in the state the
    continuation finds. *)
Definition handleSubmit_settle (E : Env) (p : Pending) (r : FetchOutcome)
    (st : State) : Completion :=
  try_finally
    (try_catch (handleSubmit_try E p r st) (handleSubmit_catch p))
    (setIsLoading false).

Definition handleClearHistory (E : Env) (st : State) : State :=
  if isLoading st then st
  else
    let (w, st1) := createWelcomeMessage E st in
    let st2 := setMessages [w] st1 in
    if hasWindow E then setItem (JSON_stringify E [w]) st2 else st2.

End Page.

(** ** Network Gateway ([POST], the route handler of [/api/chat]) *)

Module Route.

Definition CONTENT_EMPTY : jsstring :=
  [20869; 23481; 19981; 33021; 20026; 31354]%N.
Definition NEED_ONE_MESSAGE : jsstring :=
  [33267; 23569; 38656; 35201; 19968; 26465; 28040; 24687]%N.
Definition WORKFLOW_MISSING : jsstring :=
  lit "Workflow recipeChatWorkflow " ++ [26410; 27880; 20876]%N.
Definition WORKFLOW_FAILED : jsstring :=
  lit "Workflow " ++ [25191; 34892; 22833; 36133]%N.
Definition SERVICE_UNAVAILABLE : jsstring :=
  [26381; 21153; 26242; 26102; 19981; 21487; 29992; 65292; 35831; 31245;
   21518; 37325; 35797]%N.

(** *** The schemas

    The validator is the zod library: a schema either accepts a value or
    reports issues, all of them collected in the order of the data.  The
    two [min(1, ...)] checks carry the message of the source; the other
    issues get their message from the library ([defaultMessage] below). *)

Inductive Expected : Type := ExpObject | ExpArray | ExpString | ExpRole.

Inductive ZodIssue : Type :=
| invalid_type (expected : Expected) (received : option JSON)
| invalid_enum_value (received : jsstring)
| too_small (message : jsstring).

Definition Validated (A : Type) : Type := (A + list ZodIssue)%type.

Definition issuesOf (A : Type) (v : Validated A) : list ZodIssue :=
  match v with inl _ => [] | inr l => l end.

Fixpoint findRole (s : jsstring) (roles : list (jsstring * Chat.ChatRole))
  : option Chat.ChatRole :=
  match roles with
  | [] => None
  | (name, r) :: rest => if JS.eqb s name then Some r else findRole s rest
  end.

(** [z.enum(chatRoles)] *)
Definition roleSchema (v : option JSON) : Validated Chat.ChatRole :=
  match v with
  | Some (JStr s) =>
      match findRole s Chat.chatRoles with
      | Some r => inl r
      | None => inr [invalid_enum_value s]
      end
  | _ => inr [invalid_type ExpRole v]
  end.

(** [z.string().min(1, ...)] *)
Definition contentSchema (v : option JSON) : Validated jsstring :=
  match v with
  | Some (JStr s) =>
      if length s <? 1 then inr [too_small CONTENT_EMPTY] else inl s
  | _ => inr [invalid_type ExpString v]
  end.

(** [messageSchema] *)
Definition messageSchema (v : JSON) : Validated Chat.ChatMessage :=
  match v with
  | JObj fields =>
      match roleSchema (lookup (lit "role") fields),
            contentSchema (lookup (lit "content") fields) with
      | inl r, inl c => inl (Chat.mkChatMessage r c)
      | vr, vc => inr (issuesOf vr ++ issuesOf vc)
      end
  | _ => inr [invalid_type ExpObject (Some v)]
  end.

(** The elements of an array, each under [messageSchema]. *)
Fixpoint elementsSchema (items : list JSON) : Validated (list Chat.ChatMessage) :=
  match items with
  | [] => inl []
  | x :: rest =>
      match messageSchema x, elementsSchema rest with
      | inl m, inl ms => inl (m :: ms)
      | vx, vrest => inr (issuesOf vx ++ issuesOf vrest)
      end
  end.

(** [z.array(messageSchema).min(1, ...)] *)
Definition messagesSchema (v : option JSON) : Validated (list Chat.ChatMessage) :=
  match v with
  | Some (JArr items) =>
      let small := if length items <? 1 then [too_small NEED_ONE_MESSAGE] else [] in
      match small, elementsSchema items with
      | [], inl ms => inl ms
      | _, velems => inr (small ++ issuesOf velems)
      end
  | _ => inr [invalid_type ExpArray v]
  end.

(** [requestSchema.parse]: the validated input, or the issues of the
    [ZodError] it throws. *)
Definition requestSchema (body : JSON) : Validated (list Chat.ChatMessage) :=
  match body with
  | JObj fields => messagesSchema (lookup (lit "messages") fields)
  | _ => inr [invalid_type ExpObject (Some body)]
  end.

(** [issue.message] *)
Definition issueMessage (defaultMessage : ZodIssue -> jsstring) (i : ZodIssue)
  : jsstring :=
  match i with
  | too_small m => m
  | _ => defaultMessage i
  end.

(** *** The collaborators *)

(** What the one [catch] clause of the handler can tell about the value it
    caught, whoever threw it: [error instanceof ZodError], and then its
    issues, or anything else. *)
Inductive Caught : Type :=
| ZodError (issues : list ZodIssue)
| Other (e : Thrown).

(** What [run.start] resolves to: [status] is ["success"] and there is a
    result, or it is another status. *)
Inductive Execution : Type :=
| Succeeded (result : Chat.ChatCompletion)
| NotSucceeded (status : jsstring).

Record Run : Type := mkRun {
  runId : jsstring;
  start : list Chat.ChatMessage -> Caught + Execution
}.

Record Registered : Type := mkRegistered {
  createRunAsync : Caught + Run
}.

Record Deps : Type := mkDeps {
  (** [await req.json()] *)
  req_json : Caught + JSON;
  (** [mastra.getWorkflows().recipeChatWorkflow] *)
  recipeChatWorkflow : option Registered;
  (** the messages the validator gives the issues that carry none *)
  defaultMessage : ZodIssue -> jsstring
}.

(** *** The response *)

(** The object given to [NextResponse.json]; a key that is absent or
    [undefined] is [None]. *)
Record Body : Type := mkBody {
  b_error : option jsstring;
  b_status : option jsstring;
  b_message : option Chat.ChatMessage;
  b_usage : option Chat.ChatUsage;
  b_runId : option jsstring
}.

Record Response : Type := mkResponse {
  body : Body;
  httpStatus : nat
}.

Definition errorBody (e : jsstring) (status : option jsstring) : Body :=
  mkBody (Some e) status None None None.

(** The [try] block: the response it returns, or what it throws, be it
    thrown by [requestSchema.parse] or by a collaborator. *)
Definition POST_try (d : Deps) : Caught + Response :=
  match req_json d with
  | inl thrown => inl thrown
  | inr json =>
      match requestSchema json with
      | inr issues => inl (ZodError issues)
      | inl input =>
          match recipeChatWorkflow d with
          | None => inr (mkResponse (errorBody WORKFLOW_MISSING None) 500)
          | Some workflow =>
              match createRunAsync workflow with
              | inl thrown => inl thrown
              | inr run =>
                  match start run input with
                  | inl thrown => inl thrown
                  | inr (NotSucceeded status) =>
                      inr (mkResponse (errorBody WORKFLOW_FAILED (Some status)) 500)
                  | inr (Succeeded result) =>
                      inr (mkResponse
                             (mkBody None None
                                (Some (Chat.message result))
                                (Chat.usage result)
                                (Some (nullish (Chat.runId result) (runId run))))
                             200)
                  end
              end
          end
      end
  end.

Definition POST_catch (d : Deps) (c : Caught) : Response :=
  match c with
  | ZodError issues =>
      mkResponse
        (errorBody (join (lit ", ") (map (issueMessage (defaultMessage d)) issues)) None)
        400
  | Other _ => mkResponse (errorBody SERVICE_UNAVAILABLE None) 500
  end.

Definition POST (d : Deps) : Response :=
  match POST_try d with
  | inr r => r
  | inl c => POST_catch d c
  end.

(** The two variants of [ChatApiResponse], told apart by the keys. *)
Definition isSuccess (b : Body) : Prop :=
  b_error b = None /\ b_message b <> None /\ b_runId b <> None.
Definition isFailure (b : Body) : Prop :=
  b_error b <> None /\ b_message b = None /\ b_runId b = None /\ b_usage b = None.

End Route.

(** ** What the form shows ([Home], page.tsx, the JSX it returns) *)

Module View.

Import Page.

(** [disabled={isLoading || !input.trim()}] of the submit button. *)
Definition submitDisabled (st : State) : bool :=
  isLoading st || isEmpty (trim (input st)).

(** [disabled={isLoading}] of the input field. *)
Definition inputDisabled (st : State) : bool := isLoading st.

End View.

(** ** Between the page and the gateway

    The page sends [JSON.stringify] of an object literal and the gateway
    reads it with [req.json()]; the gateway answers with
    [NextResponse.json] of an object literal and the page reads it with
    [response.json()].  The text in between is left out: what is read is
    the value that was written, a key that is [undefined] being absent. *)

Module Wire.

Import Page Route.

(** A role is the string that names it. *)
Definition roleName (r : Chat.ChatRole) : jsstring :=
  match r with
  | Chat.user => lit "user"
  | Chat.assistant => lit "assistant"
  | Chat.system => lit "system"
  end.

(** [({ role, content })] *)
Definition messageJSON (m : Chat.ChatMessage) : JSON :=
  JObj [(lit "role", JStr (roleName (Chat.role m)));
        (lit "content", JStr (Chat.content m))].

(** [{ messages: ... }], the body of the request of [handleSubmit] *)
Definition requestJSON (messages : list Chat.ChatMessage) : JSON :=
  JObj [(lit "messages", JArr (map messageJSON messages))].

(** The body of a response as [handleSubmit] reads it. *)
Definition payloadOf (b : Body) : PayloadObject :=
  mkPayloadObject
    (option_map Some (b_error b))
    (option_map (fun m => mkPayloadMessage (Some (Chat.role m))
                                           (Some (Chat.content m)))
                (b_message b))
    (b_usage b)
    (b_runId b).

(** A request of the page handled by the gateway, and the answer given to
    the continuation of [handleSubmit]. *)
Definition serve (workflow : option Registered)
    (defaultMessage : ZodIssue -> jsstring) (p : Pending) : Response :=
  POST (mkDeps (inr (requestJSON (requestMessages p))) workflow defaultMessage).

Definition answer (r : Response) : FetchOutcome :=
  Responded (Object_ (payloadOf (body r))).

End Wire.

(** ** The schemas of the workflow (recipe-workflow.ts) *)

Module WorkflowSchemas.

Import Route.

Definition NEED_ONE_TO_TRIGGER : jsstring :=
  [33267; 23569; 38656; 35201; 19968; 26465; 28040; 24687; 25165; 33021;
   35302; 21457; 24037; 20316; 27969]%N.

(** [chatMessageSchema]: the declaration is the one of [messageSchema] of
    the gateway, here also under a key that may be missing. *)
Definition chatMessageSchema (v : option JSON) : Validated Chat.ChatMessage :=
  match v with
  | Some (JObj fields) =>
      match roleSchema (lookup (lit "role") fields),
            contentSchema (lookup (lit "content") fields) with
      | inl r, inl c => inl (Chat.mkChatMessage r c)
      | vr, vc => inr (issuesOf vr ++ issuesOf vc)
      end
  | _ => inr [invalid_type ExpObject v]
  end.

(** [z.string().optional()] *)
Definition optionalString (v : option JSON) : Validated (option jsstring) :=
  match v with
  | None => inl None
  | Some (JStr s) => inl (Some s)
  | _ => inr [invalid_type ExpString v]
  end.

(** [workflowOutputSchema]: the keys it does not name are dropped. *)
Definition workflowOutputSchema (v : JSON)
  : Validated (Chat.ChatMessage * option jsstring) :=
  match v with
  | JObj fields =>
      match chatMessageSchema (lookup (lit "message") fields),
            optionalString (lookup (lit "runId") fields) with
      | inl m, inl r => inl (m, r)
      | vm, vr => inr (issuesOf vm ++ issuesOf vr)
      end
  | _ => inr [invalid_type ExpObject (Some v)]
  end.

Fixpoint chatMessages (items : list JSON) : Validated (list Chat.ChatMessage) :=
  match items with
  | [] => inl []
  | x :: rest =>
      match chatMessageSchema (Some x), chatMessages rest with
      | inl m, inl ms => inl (m :: ms)
      | vx, vrest => inr (issuesOf vx ++ issuesOf vrest)
      end
  end.

(** The [inputSchema] of the workflow:
    [z.object({ messages: z.array(chatMessageSchema).min(1, ...) })]. *)
Definition workflowInputSchema (v : JSON) : Validated (list Chat.ChatMessage) :=
  match v with
  | JObj fields =>
      match lookup (lit "messages") fields with
      | Some (JArr items) =>
          let small :=
            if length items <? 1 then [too_small NEED_ONE_TO_TRIGGER] else [] in
          match small, chatMessages items with
          | [], inl ms => inl ms
          | _, velems => inr (small ++ issuesOf velems)
          end
      | other => inr [invalid_type ExpArray other]
      end
  | _ => inr [invalid_type ExpObject (Some v)]
  end.

(** The [inputSchema] of the step: the same without the lower bound. *)
Definition stepInputSchema (v : JSON) : Validated (list Chat.ChatMessage) :=
  match v with
  | JObj fields =>
      match lookup (lit "messages") fields with
      | Some (JArr items) => chatMessages items
      | other => inr [invalid_type ExpArray other]
      end
  | _ => inr [invalid_type ExpObject (Some v)]
  end.

(** [result.usage] as a value: the counts that are there. *)
Definition usageJSON (u : Chat.ChatUsage) : JSON :=
  let field name v :=
    match v with Some n => [(lit name, JNum n)] | None => [] end in
  JObj (field "inputTokens"%string (Chat.inputTokens u)
        ++ field "outputTokens"%string (Chat.outputTokens u)
        ++ field "totalTokens"%string (Chat.totalTokens u)
        ++ field "cachedInputTokens"%string (Chat.cachedInputTokens u)
        ++ field "reasoningTokens"%string (Chat.reasoningTokens u)).

(** The object [execute] returns. *)
Definition outputJSON (out : Chat.ChatCompletion) : JSON :=
  JObj ([(lit "message", Wire.messageJSON (Chat.message out))]
        ++ match Chat.usage out with
           | Some u => [(lit "usage", usageJSON u)]
           | None => []
           end
        ++ match Chat.runId out with
           | Some r => [(lit "runId", JStr r)]
           | None => []
           end).

End WorkflowSchemas.

(** ** Rendering the segments ([renderMessageSegments], page.tsx) *)

Module Render.

(** [`${index}`]: the decimal digits of an index. *)
Definition decimal (n : nat) : jsstring :=
  lit (DecimalString.NilEmpty.string_of_uint (Nat.to_uint n)).

(** The elements the function returns: [<p>], [<ul>] with its [<li>]s,
    and [<div>], each with its [key] and [className]. *)
Record Li : Type := mkLi {
  li_key : jsstring;
  li_text : jsstring
}.

Inductive Element : Type :=
| P (key className text : jsstring)
| Ul (key className : jsstring) (items : list Li)
| Div (key className : jsstring).

(** [array.map((x, index) => ...)] *)
Fixpoint mapi_from (A B : Type) (f : A -> nat -> B) (index : nat) (l : list A)
  : list B :=
  match l with
  | [] => []
  | x :: rest => f x index :: mapi_from f (S index) rest
  end.

Definition mapi (A B : Type) (f : A -> nat -> B) (l : list A) : list B :=
  mapi_from f 0 l.

Definition headingSize (level : nat) : jsstring :=
  if level =? 1 then lit "text-xl"
  else if level =? 2 then lit "text-lg"
  else lit "text-base".

Definition renderSegment (segment : MessageSegment) (index : nat) : Element :=
  match segment with
  | heading level text =>
      P (lit "heading-" ++ decimal index)
        (lit "font-semibold text-rose-600 " ++ headingSize level)
        text
  | paragraph text =>
      P (lit "paragraph-" ++ decimal index) (lit "text-sm leading-relaxed") text
  | list_ items =>
      Ul (lit "list-" ++ decimal index) (lit "list-disc space-y-1 pl-5 text-sm")
         (mapi (fun item itemIndex =>
                  mkLi (lit "list-" ++ decimal index ++ lit "-" ++ decimal itemIndex)
                       item)
               items)
  | divider =>
      Div (lit "divider-" ++ decimal index)
          (lit "my-1 h-px w-full bg-linear-to-r from-transparent via-rose-200 to-transparent")
  end.

Definition renderMessageSegments (segments : list MessageSegment) : list Element :=
  mapi renderSegment segments.

Definition key (e : Element) : jsstring :=
  match e with
  | P k _ _ => k
  | Ul k _ _ => k
  | Div k _ => k
  end.

End Render.

(** * Vocabulary of the properties *)

(** ** Vocabulary for the segmenter *)

Module SegmenterSpec.

Definition blank (s : jsstring) : bool := forallb is_space s.

(** Neither empty nor with white space at either end. *)
Definition starts_clean (s : jsstring) : Prop :=
  exists c r, s = c :: r /\ is_space c = false.
Definition ends_clean (s : jsstring) : Prop :=
  exists r c, s = r ++ [c] /\ is_space c = false.
Definition clean (s : jsstring) : Prop := starts_clean s /\ ends_clean s.

Definition clean_segment (seg : MessageSegment) : Prop :=
  match seg with
  | heading _ text => clean text
  | paragraph text => clean text
  | list_ items => Forall clean items
  | divider => True
  end.

Definition is_list (seg : MessageSegment) : bool :=
  match seg with list_ _ => true | _ => false end.

(** The lines of the input as the output shows them: a heading, a
    paragraph, a divider, or one item of a list. *)
Inductive Atom : Type :=
| AHeading (level : nat) (text : jsstring)
| AParagraph (text : jsstring)
| AItem (text : jsstring)
| ADivider.

Definition atoms (seg : MessageSegment) : list Atom :=
  match seg with
  | heading level text => [AHeading level text]
  | paragraph text => [AParagraph text]
  | list_ items => map AItem items
  | divider => [ADivider]
  end.

(** The segments flattened back to lines. *)
Definition flatten (segs : list MessageSegment) : list Atom :=
  flat_map atoms segs.

(** What a line gives when it is segmented alone. *)
Definition lineAtoms (rawLine : jsstring) : list Atom :=
  flatten (parseLines [rawLine]).

Definition empty : Acc := mkAcc [] [].

(** What a line does to the two variables, whatever they hold. *)
Inductive LineEffect (rawLine : jsstring) : Prop :=
| IsBlank :
    trim rawLine = [] ->
    (forall a, processLine a rawLine = flushList a) ->
    LineEffect rawLine
| IsBlock (seg : MessageSegment) :
    is_list seg = false -> clean_segment seg ->
    (forall a, processLine a rawLine = push seg (flushList a)) ->
    LineEffect rawLine
| IsItem (item : jsstring) :
    clean item ->
    (forall a, processLine a rawLine = pushItem item a) ->
    LineEffect rawLine.

(** Everything emitted so far, the pending items last. *)
Definition flatAcc (a : Acc) : list Atom :=
  flatten (segments a) ++ map AItem (listBuffer a).

(** What holds of the two variables all along: texts are clean, and no
    list is empty. *)
Definition good_segment (seg : MessageSegment) : Prop :=
  clean_segment seg /\ seg <> list_ [].

Definition good (a : Acc) : Prop :=
  Forall good_segment (segments a) /\ Forall clean (listBuffer a).

Definition sample : jsstring :=
  lit "# Title" ++ [LF] ++ lit "- a" ++ [LF] ++ lit "- b" ++ [LF]
    ++ lit "---" ++ [LF] ++ lit "Done".

(** Two lines of white space and an empty one. *)
Definition blanks : jsstring := lit "  " ++ [CR; LF; 9; LF]%N.

End SegmenterSpec.

(** ** Vocabulary for the page *)

Module PageSpec.

Import Page.

(** A response that takes the handler to its [catch] clause: a rejected
    await, a primitive payload, or a payload with the key [error]. *)
Definition fails (r : FetchOutcome) : bool :=
  match r with
  | FetchRejected _ => true
  | JsonRejected _ => true
  | Responded Primitive => true
  | Responded (Object_ o) =>
      match p_error o with Some _ => true | None => false end
  end.

(** The store has nothing usable: no entry, an entry [JSON.parse] refuses,
    or one that parses to something else than a non-empty array. *)
Inductive Unusable (E : Env) : option jsstring -> Prop :=
| Absent : Unusable E None
| EmptyText : Unusable E (Some [])
| ParseFailure raw : JSON_parse E raw = None -> Unusable E (Some raw)
| NotASequence raw v :
    JSON_parse E raw = Some v -> (forall items, v <> JArr items) ->
    Unusable E (Some raw)
| EmptySequence raw : JSON_parse E raw = Some (JArr []) -> Unusable E (Some raw).

(** An environment and states to run the handlers on. *)
Definition demoParse (raw : jsstring) : option JSON :=
  if JS.eqb raw (lit "42") then Some (JNum 42)
  else if JS.eqb raw (lit "[]") then Some (JArr [])
  else None.

Definition demoEnv : Env :=
  mkEnv true (fun n => lit "id-" ++ [N.of_nat n + 48]%N) demoParse
        (fun l => lit "messages:" ++ [N.of_nat (length l) + 48]%N)
        (fun _ => welcome (lit "stored")) (lit "TypeError").

(** The user types into the box: [onChange]. *)
Definition typed (text : jsstring) : State :=
  setInput text (initialState demoEnv None).

(** What the continuation keeps when [ hi ], with a space on either side,
    is submitted from the first state. *)
Definition demoPending : Pending :=
  mkPending (mkUIMessage (lit "id-1") Chat.user (lit "hi") None)
    [welcome (lit "id-0"); mkUIMessage (lit "id-1") Chat.user (lit "hi") None].

Definition boom : FetchOutcome :=
  Responded (Object_ (mkPayloadObject (Some (Some (lit "boom"))) None None None)).

Definition stirFry : PayloadObject :=
  mkPayloadObject None
    (Some (mkPayloadMessage (Some Chat.assistant) (Some (lit "Try stir-fry"))))
    None (Some (lit "r1")).

End PageSpec.

(** ** Vocabulary for the delegation step *)

Module WorkflowSpec.

Import Workflow.

Definition demoUsage : Chat.ChatUsage :=
  Chat.mkChatUsage (Some 12%Z) (Some 30%Z) (Some 42%Z) None None.

(** An agent that answers without a text and without a response
    identifier, but with a trace identifier. *)
Definition demoAgent (_ : list MessageInput) : Thrown + AgentResult :=
  inr (mkAgentResult None (Some demoUsage) (Some (mkAgentResponse None))
                     (Some (lit "trace-7"))).

End WorkflowSpec.

(** ** Vocabulary for the gateway *)

Module RouteSpec.

Import Route.

(** The messages the schemas themselves give are not empty. *)
Definition worded (i : ZodIssue) : Prop :=
  match i with
  | too_small m => m <> []
  | _ => True
  end.

(** What a collaborator throws inside the [try] block, if one does:
    [req.json()], then, the body accepted and the workflow registered,
    [createRunAsync()], then [run.start()]. *)
Definition collaboratorThrows (d : Deps) : option Caught :=
  match req_json d with
  | inl c => Some c
  | inr json =>
      match requestSchema json, recipeChatWorkflow d with
      | inl input, Some workflow =>
          match createRunAsync workflow with
          | inl c => Some c
          | inr run =>
              match start run input with
              | inl c => Some c
              | inr _ => None
              end
          end
      | _, _ => None
      end
  end.

(** A registered workflow whose [createRunAsync] rejects with a ZodError
    that has no issue. *)
Definition rejecting : Registered := mkRegistered (inl (ZodError [])).

(** A refusal comes with at least one issue, each of them worded. *)
Definition refusal (l : list ZodIssue) : Prop := l <> [] /\ Forall worded l.

Definition sound (A : Type) (v : Validated A) : Prop :=
  match v with inl _ => True | inr l => refusal l end.

(** The engine of the counterexample and the witness: it runs the one step
    of the workflow, and reports a step that throws as a failed run. *)
Definition runStep (generate : list Workflow.MessageInput -> Thrown + Workflow.AgentResult)
    (name : jsstring) : Run :=
  mkRun name
    (fun input =>
       match Workflow.execute generate input with
       | inr out => inr (Succeeded out)
       | inl _ => inr (NotSucceeded (lit "failed"))
       end).

Definition demoBody : JSON :=
  JObj [(lit "messages",
         JArr [JObj [(lit "role", JStr (lit "user"));
                     (lit "content", JStr (lit "soup?"))]])].

(** An agent whose response carries the empty string as identifier. *)
Definition namelessAgent (_ : list Workflow.MessageInput)
  : Thrown + Workflow.AgentResult :=
  inr (Workflow.mkAgentResult (Some (lit "Try stir-fry")) None
         (Some (Workflow.mkAgentResponse (Some []))) (Some (lit "trace-7"))).

Definition demoDeps (generate : list Workflow.MessageInput -> Thrown + Workflow.AgentResult)
  : Deps :=
  mkDeps (inr demoBody)
         (Some (mkRegistered (inr (runStep generate (lit "run-1")))))
         (fun _ => lit "Required").

(** An agent whose response has an identifier. *)
Definition namedAgent (_ : list Workflow.MessageInput)
  : Thrown + Workflow.AgentResult :=
  inr (Workflow.mkAgentResult (Some (lit "Try stir-fry")) None
         (Some (Workflow.mkAgentResponse (Some (lit "r1")))) None).

End RouteSpec.

(** ** More vocabulary for the segmenter *)

Module SegmenterMore.

Import SegmenterSpec.

(** What a trimmed line is taken for. *)
Inductive Kind : Type :=
| KBlank
| KBlock (seg : MessageSegment)
| KItem (item : jsstring).

Definition classify (line : jsstring) : Kind :=
  match line with
  | [] => KBlank
  | _ :: _ =>
      if JS.eqb line (lit "---") then KBlock divider
      else
        match headingMatch line with
        | Some (level, text) => KBlock (heading level text)
        | None =>
            match bulletItem line with
            | Some item => KItem item
            | None =>
                match orderedItem line with
                | Some item => KItem item
                | None => KBlock (paragraph line)
                end
            end
        end
  end.

Definition act (k : Kind) (a : Acc) : Acc :=
  match k with
  | KBlank => flushList a
  | KBlock seg => push seg (flushList a)
  | KItem item => pushItem item a
  end.

(** The cut at every LF alone, the CR left where it is. *)
Fixpoint splitLF (s : jsstring) : list jsstring :=
  match s with
  | [] => [[]]
  | c :: rest =>
      if (c =? LF)%N then [] :: splitLF rest
      else
        match splitLF rest with
        | l :: ls => (c :: l) :: ls
        | [] => [[c]]
        end
  end.

(** A line without the CR it ends with, if it ends with one. *)
Fixpoint stripCR (l : jsstring) : jsstring :=
  match l with
  | [] => []
  | c :: rest =>
      match rest with
      | [] => if (c =? CR)%N then [] else [c]
      | _ :: _ => c :: stripCR rest
      end
  end.

(** [stripCR] on every line but the last. *)
Fixpoint chop (lines : list jsstring) : list jsstring :=
  match lines with
  | [] => []
  | l :: rest =>
      match rest with
      | [] => [l]
      | _ :: _ => stripCR l :: chop rest
      end
  end.

(** The text with every LF turned into CR LF. *)
Definition crlf (s : jsstring) : jsstring :=
  flat_map (fun c => if (c =? LF)%N then [CR; LF] else [c]) s.

(** A trimmed line that starts with no marker character: not [#], [-],
    [*] or a digit. *)
Definition plain (line : jsstring) : bool :=
  match line with
  | [] => true
  | c :: _ => negb ((c =? HASH) || (c =? DASH) || (c =? STAR) || is_digit c)%N
  end.

Definition nonEmpty (s : jsstring) : bool :=
  match s with [] => false | _ :: _ => true end.

(** A heading of level one to four whose text holds no line terminator. *)
Definition heading_ok (seg : MessageSegment) : Prop :=
  match seg with
  | heading level text =>
      1 <= level <= 4 /\ existsb is_line_terminator text = false
  | _ => True
  end.

Definition count_LF (s : jsstring) : nat :=
  length (filter (N.eqb LF) s).

(** A property of the segments emitted and one of the items pending. *)
Definition kept (P : MessageSegment -> Prop) (Q : jsstring -> Prop) (a : Acc)
  : Prop :=
  Forall P (segments a) /\ Forall Q (listBuffer a).

(** A CR at the end of every line but the last. *)
Fixpoint padCR (lines : list jsstring) : list jsstring :=
  match lines with
  | [] => []
  | l :: rest =>
      match rest with
      | [] => [l]
      | _ :: _ => (l ++ [CR]) :: padCR rest
      end
  end.

End SegmenterMore.

(** ** More vocabulary for the page *)

Module PageMore.

Import Page.

(** An environment whose store format is a single word, enough to save
    and load the first conversation. *)
Definition codecEnv : Env :=
  mkEnv true (fun n => lit "id-" ++ [N.of_nat n + 48]%N)
        (fun raw => if JS.eqb raw (lit "saved") then Some (JArr [JNull]) else None)
        (fun _ => lit "saved")
        (fun _ => welcome (lit "id-0")) (lit "TypeError").

(** The state the first load leaves in that environment. *)
Definition firstLoaded : State :=
  mkState [welcome (lit "id-0")] [] false None true None 1.

End PageMore.

(** ** More vocabulary for the gateway *)

Module RouteMore.

Import Route.

Definition emptyContent (m : Chat.ChatMessage) : bool :=
  match Chat.content m with [] => true | _ :: _ => false end.

(** The issues of a request written by [Wire.requestJSON]: one when
    there is no message, and one for every message without content. *)
Definition issuesFor (messages : list Chat.ChatMessage) : list ZodIssue :=
  (if length messages <? 1 then [too_small NEED_ONE_MESSAGE] else [])
  ++ map (fun _ => too_small CONTENT_EMPTY) (filter emptyContent messages).

(** The response to anything a collaborator throws. *)
Definition unavailable : Response :=
  mkResponse (errorBody SERVICE_UNAVAILABLE None) 500.

(** A workflow whose run succeeds with a given result. *)
Definition succeeding (name : jsstring) (result : Chat.ChatCompletion)
  : Registered :=
  mkRegistered (inr (mkRun name (fun _ => inr (Succeeded result)))).

Definition stirFryResult : Chat.ChatCompletion :=
  Chat.mkChatCompletion (Chat.mkChatMessage Chat.assistant (lit "Try stir-fry"))
                        None (Some (lit "r1")).

(** A result whose message has no content. *)
Definition silentResult : Chat.ChatCompletion :=
  Chat.mkChatCompletion (Chat.mkChatMessage Chat.assistant []) None
                        (Some (lit "r2")).

End RouteMore.

(** ** Vocabulary for a whole turn *)

Module TurnSpec.

Import Page Route.

(** The conversation after a turn that an answer without content ended:
    the welcome message, the question, and a reply that is empty. *)
Definition silenced : State :=
  mkState [welcome (lit "id-0");
           mkUIMessage (lit "id-1") Chat.user (lit "hi") None;
           mkUIMessage (lit "r2") Chat.assistant [] None]
          (lit "again") false None true None 2.

Definition silencedPending : Pending :=
  mkPending (mkUIMessage (lit "id-2") Chat.user (lit "again") None)
    [welcome (lit "id-0");
     mkUIMessage (lit "id-1") Chat.user (lit "hi") None;
     mkUIMessage (lit "r2") Chat.assistant [] None;
     mkUIMessage (lit "id-2") Chat.user (lit "again") None].

End TurnSpec.

(** ** Vocabulary for the rendering *)

Module RenderSpec.

Import Render.

(** The digits a key ends with. *)
Definition trailingDigits (k : jsstring) : jsstring :=
  rev (takeWhile is_digit (rev k)).

(** The texts an element shows, and the texts a segment holds. *)
Definition shown (e : Element) : list jsstring :=
  match e with
  | P _ _ text => [text]
  | Ul _ _ items => map li_text items
  | Div _ _ => []
  end.

Definition held (seg : MessageSegment) : list jsstring :=
  match seg with
  | heading _ text => [text]
  | paragraph text => [text]
  | list_ items => items
  | divider => []
  end.

(** The keys of the items of a list, none for another element. *)
Definition itemKeys (e : Element) : list jsstring :=
  match e with
  | Ul _ _ items => map li_key items
  | _ => []
  end.

End RenderSpec.

(** * Properties *)

(** ** White space and trimming *)

Module TrimFacts.

Import SegmenterSpec.

Lemma take_drop (p : char -> bool) (s : jsstring) :
  s = takeWhile p s ++ dropWhile p s.
Proof.
  induction s as [|c s IH]; simpl; [reflexivity|].
  destruct (p c); simpl; [f_equal; exact IH | reflexivity].
Qed.

Lemma takeWhile_all (p : char -> bool) (s : jsstring) :
  forallb p (takeWhile p s) = true.
Proof.
  induction s as [|c s IH]; simpl; [reflexivity|].
  destruct (p c) eqn:E; simpl; [rewrite E; exact IH | reflexivity].
Qed.

Lemma forallb_rev (p : char -> bool) (s : jsstring) :
  forallb p (rev s) = forallb p s.
Proof.
  induction s as [|c s IH]; simpl; [reflexivity|].
  rewrite forallb_app, IH. simpl. rewrite andb_true_r. apply andb_comm.
Qed.

Lemma dropWhile_head (p : char -> bool) (s : jsstring) c r :
  dropWhile p s = c :: r -> p c = false.
Proof.
  induction s as [|x s IH]; simpl; [discriminate|].
  destruct (p x) eqn:E; [exact IH|].
  intros H; injection H as -> _; exact E.
Qed.

Lemma dropWhile_all (p : char -> bool) (s : jsstring) :
  forallb p s = true -> dropWhile p s = [].
Proof.
  induction s as [|x s IH]; simpl; [reflexivity|].
  destruct (p x); simpl; [exact IH | discriminate].
Qed.

Lemma dropWhile_nil_all (p : char -> bool) (s : jsstring) :
  dropWhile p s = [] -> forallb p s = true.
Proof.
  induction s as [|x s IH]; simpl; [reflexivity|].
  destruct (p x); simpl; [exact IH | discriminate].
Qed.

Lemma dropWhile_app_all (p : char -> bool) (pre s : jsstring) :
  forallb p pre = true -> dropWhile p (pre ++ s) = dropWhile p s.
Proof.
  induction pre as [|x pre IH]; simpl; [reflexivity|].
  destruct (p x); simpl; [exact IH | discriminate].
Qed.

Lemma dropWhile_app_keep (p : char -> bool) (s post : jsstring) :
  dropWhile p s <> [] -> dropWhile p (s ++ post) = dropWhile p s ++ post.
Proof.
  induction s as [|x s IH]; simpl; [intros H; now elim H|].
  destruct (p x); [exact IH | reflexivity].
Qed.

Lemma ends_clean_cons x (s : jsstring) :
  ends_clean (x :: s) -> s <> [] -> ends_clean s.
Proof.
  intros (r & c & E & Hc) Hs.
  destruct r as [|y r]; simpl in E.
  - injection E as _ ->. now elim Hs.
  - injection E as _ ->. now exists r, c.
Qed.

Lemma ends_clean_app (pre s : jsstring) :
  ends_clean (pre ++ s) -> s <> [] -> ends_clean s.
Proof.
  induction pre as [|x pre IH]; simpl; [tauto|].
  intros H Hs. apply IH; [|exact Hs].
  apply ends_clean_cons with x; [exact H|].
  destruct pre; simpl; [exact Hs | discriminate].
Qed.

Lemma ends_clean_not_blank (s : jsstring) : ends_clean s -> blank s = false.
Proof.
  intros (r & c & -> & Hc). unfold blank.
  rewrite forallb_app. simpl. rewrite Hc.
  now rewrite andb_false_r.
Qed.

Lemma ends_clean_dropWhile (s : jsstring) :
  ends_clean s -> ends_clean (dropWhile is_space s).
Proof.
  induction s as [|x s IH]; simpl; [tauto|].
  intros H. destruct (is_space x) eqn:E; [|exact H].
  apply IH. apply ends_clean_cons with x; [exact H|].
  intros ->. destruct H as (r & c & Hrc & Hc).
  destruct r as [|y r]; simpl in Hrc.
  - injection Hrc as ->. congruence.
  - injection Hrc as _ Hnil. now destruct r.
Qed.

(** What is left after a marker and the white space behind it. *)
Lemma clean_after_marker (pre after : jsstring) :
  ends_clean (pre ++ after) -> after <> [] ->
  clean (dropWhile is_space after).
Proof.
  intros H Hne.
  assert (He : ends_clean (dropWhile is_space after))
    by (apply ends_clean_dropWhile, ends_clean_app with pre; assumption).
  split; [|exact He].
  destruct (dropWhile is_space after) as [|c r] eqn:E.
  - destruct He as (r & c & Hrc & _). now destruct r.
  - exists c, r. split; [reflexivity|]. now apply dropWhile_head with after r.
Qed.

Lemma trimEnd_split (s : jsstring) :
  exists w, s = trimEnd s ++ w /\ blank w = true.
Proof.
  exists (rev (takeWhile is_space (rev s))). split.
  - unfold trimEnd. rewrite <- rev_app_distr, <- take_drop.
    now rewrite rev_involutive.
  - unfold blank. rewrite forallb_rev. apply takeWhile_all.
Qed.

Lemma trimEnd_ends (s : jsstring) : trimEnd s = [] \/ ends_clean (trimEnd s).
Proof.
  unfold trimEnd.
  destruct (dropWhile is_space (rev s)) as [|c r] eqn:E; [now left|right].
  exists (rev r), c. split; [reflexivity|].
  now apply dropWhile_head with (rev s) r.
Qed.

Lemma trimEnd_app_blank (s post : jsstring) :
  blank post = true -> trimEnd (s ++ post) = trimEnd s.
Proof.
  intros H. unfold trimEnd. rewrite rev_app_distr.
  rewrite dropWhile_app_all; [reflexivity|].
  now rewrite forallb_rev.
Qed.

Lemma trimEnd_blank (s : jsstring) : blank s = true -> trimEnd s = [].
Proof.
  intros H. unfold trimEnd. rewrite dropWhile_all; [reflexivity|].
  now rewrite forallb_rev.
Qed.

Lemma trim_blank (s : jsstring) : blank s = true -> trim s = [].
Proof.
  intros H. unfold trim, trimStart. now rewrite dropWhile_all.
Qed.

Lemma trim_nil_blank (s : jsstring) : trim s = [] -> blank s = true.
Proof.
  unfold trim, trimStart. intros H.
  destruct (dropWhile is_space s) as [|c r] eqn:E.
  - now apply dropWhile_nil_all.
  - exfalso.
    assert (Hc : is_space c = false) by now apply dropWhile_head with s r.
    destruct (trimEnd_split (c :: r)) as (w & Hw & Hb).
    rewrite H in Hw. simpl in Hw. subst w.
    simpl in Hb. now rewrite Hc in Hb.
Qed.

Lemma trim_clean (s : jsstring) : trim s = [] \/ clean (trim s).
Proof.
  destruct (trim s) as [|c r] eqn:E; [now left|right].
  unfold trim in E. split.
  - exists c, r. split; [reflexivity|].
    destruct (trimEnd_split (trimStart s)) as (w & Hw & _).
    rewrite E in Hw. simpl in Hw.
    now apply dropWhile_head with s (r ++ w).
  - destruct (trimEnd_ends (trimStart s)) as [H|H]; rewrite E in H;
      [discriminate | exact H].
Qed.

(** White space around a line does not change what [trim] returns. *)
Lemma trim_surrounded (pre line post : jsstring) :
  blank pre = true -> blank post = true ->
  trim (pre ++ line ++ post) = trim line.
Proof.
  intros Hpre Hpost. unfold trim, trimStart.
  rewrite dropWhile_app_all by exact Hpre.
  destruct (dropWhile is_space line) as [|c r] eqn:E.
  - rewrite dropWhile_app_all by now apply dropWhile_nil_all.
    rewrite dropWhile_all by exact Hpost. reflexivity.
  - rewrite dropWhile_app_keep by (rewrite E; discriminate).
    rewrite E. now apply trimEnd_app_blank.
Qed.

Lemma trim_idempotent (s : jsstring) : trim (trim s) = trim s.
Proof.
  destruct (trim_clean s) as [E|[(c & r & E & Hc) He]].
  - rewrite E. reflexivity.
  - unfold trim at 1. unfold trimStart. rewrite E at 1. simpl. rewrite Hc.
    rewrite <- E. unfold trimEnd.
    destruct He as (r' & c' & E' & Hc'). rewrite E'.
    rewrite rev_app_distr. simpl. rewrite Hc'. simpl.
    now rewrite rev_involutive.
Qed.

End TrimFacts.

(** ** The segmenter *)

Module SegmenterFacts.

Import SegmenterSpec TrimFacts.

Lemma headingMatch_clean (line : jsstring) level text :
  ends_clean line -> headingMatch line = Some (level, text) -> clean text.
Proof.
  intros He. unfold headingMatch.
  destruct (_ && _); [|discriminate].
  destruct (dropWhile (N.eqb HASH) line) as [|c after] eqn:E; [discriminate|].
  destruct (is_space c); [|discriminate].
  destruct (existsb _ _); [discriminate|].
  intros H; injection H as _ <-.
  change (clean (dropWhile is_space (c :: after))).
  apply clean_after_marker with (takeWhile (N.eqb HASH) line); [|discriminate].
  now rewrite <- E, <- take_drop.
Qed.

Lemma bulletItem_clean (line item : jsstring) :
  ends_clean line -> bulletItem line = Some item -> clean item.
Proof.
  intros He. unfold bulletItem.
  destruct line as [|m [|c after]]; try discriminate.
  destruct (_ && _); [|discriminate].
  intros H; injection H as <-.
  change (clean (dropWhile is_space (c :: after))).
  apply clean_after_marker with [m]; [exact He | discriminate].
Qed.

Lemma orderedItem_clean (line item : jsstring) :
  ends_clean line -> orderedItem line = Some item -> clean item.
Proof.
  intros He. unfold orderedItem.
  destruct (takeWhile is_digit line) as [|d0 ds] eqn:Et; [discriminate|].
  destruct (dropWhile is_digit line) as [|d [|c after]] eqn:Ed; try discriminate.
  destruct (_ && _); [|discriminate].
  intros H; injection H as <-.
  change (clean (dropWhile is_space (c :: after))).
  apply clean_after_marker with ((d0 :: ds) ++ [d]); [|discriminate].
  rewrite <- app_assoc.
  change (ends_clean ((d0 :: ds) ++ d :: c :: after)).
  now rewrite <- Et, <- Ed, <- take_drop.
Qed.

Lemma processLine_effect (rawLine : jsstring) : LineEffect rawLine.
Proof.
  destruct (trim_clean rawLine) as [E|Hclean].
  - apply IsBlank; [exact E|]. intros a. unfold processLine. now rewrite E.
  - assert (He := proj2 Hclean).
    destruct (trim rawLine) as [|c r] eqn:E.
    { destruct Hclean as [(? & ? & ? & _) _]. discriminate. }
    assert (Hstep : forall a, processLine a rawLine =
      if JS.eqb (c :: r) (lit "---") then push divider (flushList a)
      else match headingMatch (c :: r) with
           | Some (level, text) => push (heading level text) (flushList a)
           | None =>
               match bulletItem (c :: r) with
               | Some item => pushItem item a
               | None =>
                   match orderedItem (c :: r) with
                   | Some item => pushItem item a
                   | None => push (paragraph (c :: r)) (flushList a)
                   end
               end
           end).
    { intros a. unfold processLine. now rewrite E. }
    destruct (JS.eqb (c :: r) (lit "---")).
    { now apply IsBlock with divider. }
    destruct (headingMatch (c :: r)) as [[level text]|] eqn:Eh.
    { apply IsBlock with (heading level text); [reflexivity| |exact Hstep].
      now apply headingMatch_clean with (c :: r) level. }
    destruct (bulletItem (c :: r)) as [item|] eqn:Eb.
    { apply IsItem with item; [|exact Hstep].
      now apply bulletItem_clean with (c :: r). }
    destruct (orderedItem (c :: r)) as [item|] eqn:Eo.
    { apply IsItem with item; [|exact Hstep].
      now apply orderedItem_clean with (c :: r). }
    now apply IsBlock with (paragraph (c :: r)).
Qed.

Lemma flatten_app (x y : list MessageSegment) :
  flatten (x ++ y) = flatten x ++ flatten y.
Proof. apply flat_map_app. Qed.

Lemma flatAcc_flushList (a : Acc) : flatAcc (flushList a) = flatAcc a.
Proof.
  unfold flatAcc, flushList. destruct a as [segs [|i buf]]; simpl; [reflexivity|].
  rewrite flatten_app. simpl. now rewrite !app_nil_r.
Qed.

Lemma flatAcc_push (seg : MessageSegment) (a : Acc) :
  is_list seg = false ->
  flatAcc (push seg (flushList a)) = flatAcc a ++ atoms seg.
Proof.
  intros _. rewrite <- (flatAcc_flushList a).
  unfold flatAcc, push, flushList.
  destruct a as [segs [|i buf]]; simpl;
    rewrite !flatten_app; simpl; now rewrite !app_nil_r.
Qed.

Lemma flatAcc_pushItem (item : jsstring) (a : Acc) :
  flatAcc (pushItem item a) = flatAcc a ++ [AItem item].
Proof.
  unfold flatAcc, pushItem. simpl. now rewrite map_app, app_assoc.
Qed.

Lemma flatten_flushList (a : Acc) :
  flatten (segments (flushList a)) = flatAcc a.
Proof.
  rewrite <- flatAcc_flushList. unfold flatAcc, flushList.
  destruct a as [segs [|i buf]]; simpl; now rewrite app_nil_r.
Qed.

Lemma flatAcc_processLine (a : Acc) (rawLine : jsstring) :
  flatAcc (processLine a rawLine) = flatAcc a ++ lineAtoms rawLine.
Proof.
  unfold lineAtoms, parseLines. simpl fold_left.
  rewrite flatten_flushList.
  destruct (processLine_effect rawLine) as [_ H|seg Hl _ H|item _ H];
    rewrite !H.
  - rewrite !flatAcc_flushList. simpl. now rewrite app_nil_r.
  - rewrite !flatAcc_push by exact Hl. reflexivity.
  - rewrite !flatAcc_pushItem. reflexivity.
Qed.

Lemma flatAcc_fold (lines : list jsstring) (a : Acc) :
  flatAcc (fold_left processLine lines a) = flatAcc a ++ flat_map lineAtoms lines.
Proof.
  revert a. induction lines as [|l lines IH]; intros a; simpl.
  - now rewrite app_nil_r.
  - rewrite IH, flatAcc_processLine. now rewrite app_assoc.
Qed.

Lemma flatten_parseLines (lines : list jsstring) :
  flatten (parseLines lines) = flat_map lineAtoms lines.
Proof.
  unfold parseLines. now rewrite flatten_flushList, flatAcc_fold.
Qed.

Lemma lineAtoms_at_most_one (rawLine : jsstring) : length (lineAtoms rawLine) <= 1.
Proof.
  unfold lineAtoms, parseLines. simpl fold_left.
  destruct (processLine_effect rawLine) as [_ H|seg Hl _ H|item _ H];
    rewrite H; simpl.
  - lia.
  - destruct seg; simpl; try lia. discriminate.
  - lia.
Qed.

End SegmenterFacts.

Module SegmenterInvariant.

Import SegmenterSpec TrimFacts SegmenterFacts.

Lemma good_flushList (a : Acc) : good a -> good (flushList a).
Proof.
  intros [Hs Hb]. unfold flushList.
  destruct (listBuffer a) as [|i buf] eqn:E.
  { split; [exact Hs | rewrite E; constructor]. }
  split; simpl; [|constructor].
  apply Forall_app. split; [exact Hs|].
  constructor; [|constructor]. split; [exact Hb | discriminate].
Qed.

Lemma good_push (seg : MessageSegment) (a : Acc) :
  is_list seg = false -> clean_segment seg -> good a -> good (push seg a).
Proof.
  intros Hl Hc [Hs Hb]. split; simpl; [|exact Hb].
  apply Forall_app. split; [exact Hs|].
  constructor; [|constructor]. split; [exact Hc|].
  intros ->. discriminate.
Qed.

Lemma good_pushItem (item : jsstring) (a : Acc) :
  clean item -> good a -> good (pushItem item a).
Proof.
  intros Hc [Hs Hb]. split; simpl; [exact Hs|].
  apply Forall_app. split; [exact Hb|]. now constructor.
Qed.

Lemma good_processLine (a : Acc) (rawLine : jsstring) :
  good a -> good (processLine a rawLine).
Proof.
  intros Ha.
  destruct (processLine_effect rawLine) as [_ H|seg Hl Hc H|item Hc H];
    rewrite H.
  - now apply good_flushList.
  - now apply good_push, good_flushList.
  - now apply good_pushItem.
Qed.

Lemma good_fold (lines : list jsstring) (a : Acc) :
  good a -> good (fold_left processLine lines a).
Proof.
  revert a. induction lines as [|l lines IH]; intros a Ha; simpl; [exact Ha|].
  now apply IH, good_processLine.
Qed.

Lemma good_parseLines (lines : list jsstring) :
  Forall good_segment (parseLines lines).
Proof.
  unfold parseLines.
  apply good_flushList, good_fold. split; constructor.
Qed.

Lemma processLine_blank (a : Acc) (rawLine : jsstring) :
  blank rawLine = true -> processLine a rawLine = flushList a.
Proof.
  intros H. unfold processLine. now rewrite trim_blank.
Qed.

Lemma fold_blank (lines : list jsstring) :
  Forall (fun l => blank l = true) lines ->
  fold_left processLine lines empty = empty.
Proof.
  induction 1 as [|l lines Hl _ IH]; simpl; [reflexivity|].
  rewrite processLine_blank by exact Hl. exact IH.
Qed.

Lemma processLine_surrounded (a : Acc) (pre line post : jsstring) :
  blank pre = true -> blank post = true ->
  processLine a (pre ++ line ++ post) = processLine a line.
Proof.
  intros Hpre Hpost. unfold processLine.
  now rewrite trim_surrounded.
Qed.

End SegmenterInvariant.

(** ** The claims about the segmenter *)

Module SegmenterClaims.

Import SegmenterSpec TrimFacts SegmenterFacts SegmenterInvariant.

(** C7: segmenting the string made of the lines [# Title], [- a], [- b],
    [---] and [Done], joined by line feeds, gives exactly four segments in
    this order: the heading of level 1 with text [Title], the list of [a]
    and [b], a divider, and the paragraph [Done]. *)
Theorem segment_sample :
  parseMessageContent sample
  = [heading 1 (lit "Title"); list_ [lit "a"; lit "b"]; divider;
     paragraph (lit "Done")].
Proof. vm_compute. reflexivity. Qed.

(** C8: the segments keep the order of the input lines.  Flattened back to
    lines (a list segment to its items), the output is the concatenation,
    in input order, of what each line gives when segmented alone, and a line
    alone gives at most one heading, paragraph, divider or item.  An input
    whose lines are all blank, the empty string among them, gives no
    segment; and no list segment is empty. *)
Theorem segment_preserves_order (content : jsstring) :
  flatten (parseMessageContent content)
    = flat_map lineAtoms (split_lines content)
  /\ (forall rawLine, length (lineAtoms rawLine) <= 1)
  /\ (Forall (fun l => blank l = true) (split_lines content) ->
      parseMessageContent content = [])
  /\ parseMessageContent [] = []
  /\ (forall items,
        In (list_ items) (parseMessageContent content) -> items <> []).
Proof.
  split; [apply flatten_parseLines|].
  split; [apply lineAtoms_at_most_one|].
  split; [|split; [reflexivity|]].
  - intros H. unfold parseMessageContent, parseLines.
    change (mkAcc [] []) with empty. now rewrite fold_blank.
  - intros items Hin.
    pose proof (good_parseLines (split_lines content)) as Hgood.
    rewrite Forall_forall in Hgood.
    destruct (Hgood _ Hin) as [_ Hne].
    intros ->. now apply Hne.
Qed.

(** C10: a line is classified after trimming.  A line of white space only
    acts as the empty line does: it flushes the pending list and emits
    nothing else.  White space around a line changes nothing of what the
    line does, so markers with white space around them are recognised (a
    divider, a heading and a list marker are shown).  Every heading text,
    paragraph text and list item emitted is non-empty and has no white
    space at either end. *)
Theorem segment_trims_lines :
  (forall a rawLine,
      blank rawLine = true ->
      processLine a rawLine = processLine a []
      /\ processLine a rawLine = flushList a)
  /\ (forall a pre line post,
        blank pre = true -> blank post = true ->
        processLine a (pre ++ line ++ post) = processLine a line)
  /\ parseMessageContent (lit "   ---  ") = [divider]
  /\ parseMessageContent (lit "  ## Title ") = [heading 2 (lit "Title")]
  /\ parseMessageContent (lit "   - item") = [list_ [lit "item"]]
  /\ (forall content seg,
        In seg (parseMessageContent content) -> clean_segment seg).
Proof.
  split; [|split; [|split; [|split; [|split]]]].
  - intros a rawLine H. split; [|now apply processLine_blank].
    now rewrite !processLine_blank.
  - intros a pre line post. apply processLine_surrounded.
  - vm_compute. reflexivity.
  - vm_compute. reflexivity.
  - vm_compute. reflexivity.
  - intros content seg Hin.
    pose proof (good_parseLines (split_lines content)) as Hgood.
    rewrite Forall_forall in Hgood.
    now destruct (Hgood _ Hin).
Qed.

End SegmenterClaims.

(** ** The conversation store and the submission controller *)

Module PageFacts.

Import Page PageSpec.

Lemma eqb_refl (s : jsstring) : JS.eqb s s = true.
Proof.
  induction s as [|c s IH]; simpl; [reflexivity|].
  now rewrite N.eqb_refl, IH.
Qed.

Lemma eqb_eq (a b : jsstring) : JS.eqb a b = true -> a = b.
Proof.
  revert b. induction a as [|x a IH]; intros [|y b]; simpl; try discriminate.
  - reflexivity.
  - intros H. apply andb_prop in H as [Hx Hab].
    apply N.eqb_eq in Hx. subst y. f_equal. now apply IH.
Qed.

(** Filtering out an identifier that no message has keeps them all. *)
Lemma filter_absent (i : jsstring) (l : list UIMessage) :
  ~ In i (map id l) ->
  filter (fun msg => negb (JS.eqb (id msg) i)) l = l.
Proof.
  induction l as [|m l IH]; simpl; [reflexivity|].
  intros H. destruct (JS.eqb (id m) i) eqn:E; simpl.
  - exfalso. apply H. left. now apply eqb_eq.
  - f_equal. apply IH. intros Hin. apply H. now right.
Qed.

Lemma filter_rollback (u : UIMessage) (l : list UIMessage) :
  ~ In (id u) (map id l) ->
  filter (fun msg => negb (JS.eqb (id msg) (id u))) (l ++ [u]) = l.
Proof.
  intros H. rewrite filter_app, filter_absent by exact H.
  simpl. rewrite eqb_refl. simpl. apply app_nil_r.
Qed.

(** What a request that is sent leaves behind. *)
Lemma handleSubmit_start_sent (E : Env) (st st2 : State) (p : Pending) :
  handleSubmit_start E st = (st2, Some p) ->
  userMessage p = mkUIMessage (randomId E (drawn st)) Chat.user (trim (input st)) None
  /\ optimisticMessages p = messages st ++ [userMessage p]
  /\ messages st2 = optimisticMessages p
  /\ input st2 = []
  /\ error st2 = None
  /\ isLoading st2 = true
  /\ isLoading st = false.
Proof.
  unfold handleSubmit_start.
  destruct (isEmpty (trim (input st))); simpl; [discriminate|].
  destruct (isLoading st); simpl; [discriminate|].
  intros H. injection H as <- <-. simpl. repeat split.
Qed.

Lemma handleSubmit_try_fails (E : Env) (p : Pending) (r : FetchOutcome) (st : State) :
  fails r = true -> exists e, handleSubmit_try E p r st = Throw e st.
Proof.
  destruct r as [e|e|[|o]]; simpl; try (intros _; eexists; reflexivity).
  destruct (p_error o); [intros _; eexists; reflexivity | discriminate].
Qed.

Lemma hydrate_normal (E : Env) (st : State) : exists st', hydrate E st = Normal st'.
Proof.
  unfold hydrate. destruct (hasWindow E); simpl; [|now eexists].
  destruct (storage st) as [[|c raw]|]; simpl; try now eexists.
  destruct (JSON_parse E (c :: raw)) as [[| | | |[|x items]|]|]; simpl;
    now eexists.
Qed.

(** Clearing, when nothing is in flight, spelled out. *)
Lemma handleClearHistory_idle (E : Env) (st : State) :
  isLoading st = false ->
  handleClearHistory E st
  = mkState [welcome (randomId E (drawn st))] (input st) false (error st)
      (isHydrated st)
      (if hasWindow E
       then Some (JSON_stringify E [welcome (randomId E (drawn st))])
       else storage st)
      (S (drawn st)).
Proof.
  intros H. unfold handleClearHistory. rewrite H. simpl.
  unfold setItem, setMessages. simpl. rewrite H.
  now destruct (hasWindow E).
Qed.

End PageFacts.

Module PageClaims.

Import Page PageSpec PageFacts.

(** C6: while a submission is in flight, submitting again changes nothing:
    the state, the conversation in it, is what it was, and no request is
    sent and nothing is kept for later. *)
Theorem submit_while_loading_is_dropped (E : Env) (st : State) :
  isLoading st = true ->
  handleSubmit_start E st = (st, None).
Proof.
  intros H. unfold handleSubmit_start. rewrite H.
  now rewrite orb_true_r.
Qed.

Lemma submit_while_loading_is_dropped_witness :
  let busy := fst (handleSubmit_start demoEnv (typed (lit "hi"))) in
  isLoading busy = true
  /\ handleSubmit_start demoEnv (setInput (lit "again") busy)
     = (setInput (lit "again") busy, None).
Proof.
  split; [reflexivity|].
  apply (submit_while_loading_is_dropped demoEnv). reflexivity.
Defined.

(** C5, as the code has it: when no submission is in flight, clearing
    gives a conversation of exactly one message, the welcome message with
    role assistant, whose identifier is the one [generateId] draws at this
    invocation (the draw is used up: the next invocation draws the next
    one); where there is a window the
    one-message conversation is written to the store, and the persisting
    effect that follows leaves it there.  While a submission is in flight
    clearing does nothing: the state is left as it is. *)
Theorem clear_when_idle (E : Env) (st : State) :
  (isLoading st = false ->
   let st' := handleClearHistory E st in
   messages st' = [welcome (randomId E (drawn st))]
   /\ length (messages st') = 1
   /\ (forall m, In m (messages st') -> role m = Chat.assistant)
   /\ id (welcome (randomId E (drawn st))) = fst (generateId E st)
   /\ drawn st' = S (drawn st)
   /\ (hasWindow E = true ->
       storage st' = Some (JSON_stringify E (messages st'))
       /\ storage (persist E st') = Some (JSON_stringify E (messages st'))))
  /\ (isLoading st = true -> handleClearHistory E st = st).
Proof.
  split.
  - intros H st'. subst st'.
    rewrite (handleClearHistory_idle E st H). simpl.
    split; [reflexivity|]. split; [reflexivity|].
    split; [intros m [<-|[]]; reflexivity|].
    split; [reflexivity|]. split; [reflexivity|].
    intros Hw. unfold persist. rewrite Hw. simpl.
    split; [reflexivity|]. now destruct (isHydrated st).
  - intros H. unfold handleClearHistory. now rewrite H.
Qed.

Lemma clear_when_idle_witness :
  (let st := typed (lit "hi") in
   messages (handleClearHistory demoEnv st) = [welcome (lit "id-1")]
   /\ storage (handleClearHistory demoEnv st) = Some (lit "messages:1"))
  /\ (let busy := fst (handleSubmit_start demoEnv (typed (lit "hi"))) in
      handleClearHistory demoEnv busy = busy).
Proof.
  split.
  - destruct (proj1 (clear_when_idle demoEnv (typed (lit "hi"))) eq_refl)
      as (Hm & _ & _ & _ & _ & Hs).
    split; [exact Hm|]. now destruct (Hs eq_refl).
  - apply (proj2 (clear_when_idle demoEnv
                    (fst (handleSubmit_start demoEnv (typed (lit "hi")))))).
    reflexivity.
Defined.

(** C5 as stated fails while a submission is in flight: clearing then
    leaves the two messages of the conversation, the last one of role user,
    and writes nothing to the store. *)
Lemma clear_while_loading_counterexample :
  let busy := fst (handleSubmit_start demoEnv (typed (lit "hi"))) in
  isLoading busy = true
  /\ length (messages (handleClearHistory demoEnv busy)) = 2
  /\ length (messages (handleClearHistory demoEnv busy)) <> 1
  /\ map role (messages (handleClearHistory demoEnv busy))
     = [Chat.assistant; Chat.user]
  /\ storage (handleClearHistory demoEnv busy) = None.
Proof. vm_compute. repeat split; discriminate. Qed.

(** C2, as the code has it: when the awaited call fails (a rejected
    await, or a payload with the key [error]) after a submission whose
    fresh identifier no message of the conversation has, the handler ends
    normally with the conversation as it was before the submission, hence
    of the same length, with the input field holding the submitted text
    with the white space around it trimmed off (the content of the user
    message), with an error message to show, and with loading over. *)
Theorem failure_rolls_back (E : Env) (st st2 : State) (p : Pending)
    (r : FetchOutcome) :
  handleSubmit_start E st = (st2, Some p) ->
  fails r = true ->
  ~ In (randomId E (drawn st)) (map id (messages st)) ->
  exists st3 shown,
    handleSubmit_settle E p r st2 = Normal st3
    /\ messages st3 = messages st
    /\ length (messages st3) = length (messages st)
    /\ input st3 = trim (input st)
    /\ input st3 = content (userMessage p)
    /\ error st3 = Some shown
    /\ isLoading st3 = false.
Proof.
  intros Hstart Hfail Hfresh.
  destruct (handleSubmit_start_sent E st Hstart)
    as (Hu & Hopt & Hm2 & _ & _ & _ & _).
  destruct (handleSubmit_try_fails E p r st2 Hfail) as [e He].
  unfold handleSubmit_settle. rewrite He. simpl.
  assert (Hroll : filter (fun msg => negb (JS.eqb (id msg) (id (userMessage p))))
                    (messages st2) = messages st).
  { rewrite Hm2, Hopt. apply filter_rollback. now rewrite Hu. }
  eexists. eexists. split; [reflexivity|]. simpl. rewrite Hroll.
  repeat split. now rewrite Hu.
Qed.

Lemma failure_rolls_back_witness :
  exists st3 shown,
    handleSubmit_settle demoEnv demoPending boom
      (fst (handleSubmit_start demoEnv (typed (lit " hi ")))) = Normal st3
    /\ messages st3 = messages (typed (lit " hi "))
    /\ length (messages st3) = length (messages (typed (lit " hi ")))
    /\ input st3 = trim (input (typed (lit " hi ")))
    /\ input st3 = content (userMessage demoPending)
    /\ error st3 = Some shown
    /\ isLoading st3 = false.
Proof.
  apply (@failure_rolls_back demoEnv (typed (lit " hi "))).
  - reflexivity.
  - reflexivity.
  - vm_compute. intros [H|[]]. discriminate H.
Defined.

(** C2 as stated fails on the input field: after the failure it holds
    the trimmed text, not the text that was submitted. *)
Lemma failure_restores_trimmed_text_counterexample :
  let st := typed (lit " hi ") in
  match handleSubmit_start demoEnv st with
  | (st2, Some p) =>
      match handleSubmit_settle demoEnv p boom st2 with
      | Normal st3 =>
          input st3 = lit "hi" /\ input st3 <> input st
          /\ length (messages st3) = length (messages st)
      | Throw _ _ => False
      end
  | (_, None) => False
  end.
Proof. vm_compute. repeat split. discriminate. Qed.

(** C3: after a submission that was sent, a payload without the key
    [error] makes the handler end normally with the conversation of before
    the submission, then the user message, then exactly one more message:
    its identifier is the [runId] of the payload when there is one and
    otherwise the next identifier [generateId] draws, its role is the one
    of the payload and assistant by default, its content is the one of the
    payload and the fallback text by default, and its usage is the one of
    the payload. *)
Theorem success_appends_reply (E : Env) (st st2 st' : State) (p : Pending)
    (o : PayloadObject) :
  handleSubmit_start E st = (st2, Some p) ->
  p_error o = None ->
  exists st3 reply,
    handleSubmit_settle E p (Responded (Object_ o)) st' = Normal st3
    /\ messages st3 = messages st ++ [userMessage p; reply]
    /\ length (messages st3) = length (optimisticMessages p) + 1
    /\ id reply = match p_runId o with
                  | Some r => r
                  | None => randomId E (drawn st')
                  end
    /\ role reply = match p_message o with
                    | Some (mkPayloadMessage (Some r) _) => r
                    | _ => Chat.assistant
                    end
    /\ content reply = match p_message o with
                       | Some (mkPayloadMessage _ (Some c)) => c
                       | _ => FALLBACK_CONTENT
                       end
    /\ usage reply = p_usage o
    /\ isLoading st3 = false.
Proof.
  intros Hstart Herr.
  destruct (handleSubmit_start_sent E st Hstart) as (_ & Hopt & _).
  unfold handleSubmit_settle, handleSubmit_try. rewrite Herr.
  destruct (p_runId o) as [r|] eqn:Er; simpl.
  all: eexists; eexists; split; [reflexivity|]; simpl.
  all: rewrite Hopt, <- app_assoc; split; [reflexivity|].
  all: split; [rewrite !length_app; simpl; lia|].
  all: split; [reflexivity|].
  all: unfold messageRole, messageContent.
  all: destruct (p_message o) as [[[ro|] [co|]]|]; simpl; repeat split.
Qed.

Lemma success_appends_reply_witness :
  exists st3 reply,
    handleSubmit_settle demoEnv demoPending (Responded (Object_ stirFry))
      (fst (handleSubmit_start demoEnv (typed (lit " hi ")))) = Normal st3
    /\ messages st3
       = messages (typed (lit " hi ")) ++ [userMessage demoPending; reply]
    /\ length (messages st3) = length (optimisticMessages demoPending) + 1
    /\ id reply = lit "r1"
    /\ role reply = Chat.assistant
    /\ content reply = lit "Try stir-fry"
    /\ usage reply = None
    /\ isLoading st3 = false.
Proof.
  apply (@success_appends_reply demoEnv (typed (lit " hi "))
           (fst (handleSubmit_start demoEnv (typed (lit " hi "))))).
  - reflexivity.
  - reflexivity.
Defined.

(** C4: loading never raises; and when the store has no entry, or an
    entry that does not parse, or one that parses to something that is not
    an array, or to the empty array, the conversation loaded is the
    one-element welcome sequence. *)
Theorem load_degrades_to_welcome (E : Env) (stored : option jsstring) :
  (exists st, load E stored = Normal st)
  /\ (Unusable E stored ->
      exists st i, load E stored = Normal st /\ messages st = [welcome i]).
Proof.
  split; [apply hydrate_normal|].
  intros H. unfold load, hydrate.
  destruct (hasWindow E); simpl; [|now eexists; eexists].
  destruct H as [| |raw Hp|raw v Hp Hv|raw Hp]; simpl.
  - now eexists; eexists.
  - now eexists; eexists.
  - destruct raw as [|c raw]; [now eexists; eexists|].
    rewrite Hp. simpl. now eexists; eexists.
  - destruct raw as [|c raw]; [now eexists; eexists|].
    rewrite Hp.
    destruct v as [| | | |[|x items]|]; simpl; try now eexists; eexists.
    now elim (Hv (x :: items)).
  - destruct raw as [|c raw]; [now eexists; eexists|].
    rewrite Hp. simpl. now eexists; eexists.
Qed.

Lemma load_degrades_to_welcome_witness :
  exists st i,
    load demoEnv (Some (lit "42")) = Normal st /\ messages st = [welcome i].
Proof.
  apply (proj2 (load_degrades_to_welcome demoEnv (Some (lit "42")))).
  apply NotASequence with (JNum 42); [reflexivity | discriminate].
Defined.

End PageClaims.

(** ** The delegation step *)

Module WorkflowClaims.

Import Workflow WorkflowSpec.

(** C9: when the agent resolves to a result, [execute] returns a message of
    role assistant whose content is the text of the result, the empty
    string when there is none; the usage of the result as it is; and as
    [runId] the identifier of the agent's response, the trace identifier
    when the response or its identifier is missing. *)
Theorem execute_normalizes
    (generate : list MessageInput -> Thrown + AgentResult)
    (messages : list Chat.ChatMessage) (result : AgentResult) :
  generate (agentMessages messages) = inr result ->
  exists out,
    execute generate messages = inr out
    /\ Chat.role (Chat.message out) = Chat.assistant
    /\ (forall t, text result = Some t -> Chat.content (Chat.message out) = t)
    /\ (text result = None -> Chat.content (Chat.message out) = [])
    /\ Chat.usage out = usage result
    /\ (forall r i, response result = Some r -> id r = Some i ->
        Chat.runId out = Some i)
    /\ (forall r, response result = Some r -> id r = None ->
        Chat.runId out = traceId result)
    /\ (response result = None -> Chat.runId out = traceId result).
Proof.
  intros H. unfold execute. rewrite H.
  eexists. split; [reflexivity|]. simpl. unfold deriveRunId.
  repeat split.
  - now intros t ->.
  - now intros ->.
  - now intros r i -> ->.
  - now intros r -> ->.
  - now intros ->.
Qed.

Lemma execute_normalizes_witness :
  exists out,
    execute demoAgent [Chat.mkChatMessage Chat.user (lit "soup?")] = inr out
    /\ Chat.content (Chat.message out) = []
    /\ Chat.usage out = Some demoUsage
    /\ Chat.runId out = Some (lit "trace-7").
Proof.
  destruct (@execute_normalizes demoAgent
              [Chat.mkChatMessage Chat.user (lit "soup?")] _ eq_refl)
    as (out & Hout & _ & _ & Hc & Hu & _ & Hr & _).
  exists out. split; [exact Hout|]. split; [exact (Hc eq_refl)|].
  split; [exact Hu|]. exact (Hr _ eq_refl eq_refl).
Defined.

End WorkflowClaims.

(** ** The gateway *)

Module RouteFacts.

Import Route RouteSpec.

Lemma refusal_single (i : ZodIssue) : worded i -> refusal [i].
Proof. intros H. split; [discriminate | now constructor]. Qed.

Lemma refusal_app_l (l1 l2 : list ZodIssue) :
  refusal l1 -> Forall worded l2 -> refusal (l1 ++ l2).
Proof.
  intros [Hne Hw] H2. split.
  - destruct l1; [now elim Hne | discriminate].
  - apply Forall_app. now split.
Qed.

Lemma refusal_app_r (l1 l2 : list ZodIssue) :
  Forall worded l1 -> refusal l2 -> refusal (l1 ++ l2).
Proof.
  intros H1 [Hne Hw]. split.
  - intros H. apply app_eq_nil in H as [_ H]. now apply Hne.
  - apply Forall_app. now split.
Qed.

Lemma sound_issues (A : Type) (v : Validated A) :
  sound v -> Forall worded (issuesOf v).
Proof. destruct v; simpl; [constructor | now intros [_ H]]. Qed.

Lemma roleSchema_sound (v : option JSON) : sound (roleSchema v).
Proof.
  unfold roleSchema.
  destruct v as [[| | |s| |]|]; try (now apply refusal_single).
  destruct (findRole s Chat.chatRoles); [exact I|].
  now apply refusal_single.
Qed.

Lemma contentSchema_sound (v : option JSON) : sound (contentSchema v).
Proof.
  unfold contentSchema.
  destruct v as [[| | |s| |]|]; try (now apply refusal_single).
  destruct (length s <? 1); [|exact I].
  apply refusal_single. discriminate.
Qed.

Lemma messageSchema_sound (v : JSON) : sound (messageSchema v).
Proof.
  unfold messageSchema.
  destruct v as [| | | | |fields]; simpl; try (now apply refusal_single).
  pose proof (roleSchema_sound (lookup (lit "role") fields)) as Hr.
  pose proof (contentSchema_sound (lookup (lit "content") fields)) as Hc.
  destruct (roleSchema _) as [r|lr], (contentSchema _) as [c|lc]; simpl in *.
  - exact I.
  - exact Hc.
  - rewrite app_nil_r. exact Hr.
  - apply refusal_app_l; [exact Hr | now destruct Hc].
Qed.

Lemma elementsSchema_sound (items : list JSON) : sound (elementsSchema items).
Proof.
  induction items as [|x items IH]; simpl; [exact I|].
  pose proof (messageSchema_sound x) as Hx.
  destruct (messageSchema x) as [m|lx], (elementsSchema items) as [ms|lrest];
    simpl in *.
  - exact I.
  - exact IH.
  - rewrite app_nil_r. exact Hx.
  - apply refusal_app_l; [exact Hx | now destruct IH].
Qed.

Lemma messagesSchema_sound (v : option JSON) : sound (messagesSchema v).
Proof.
  unfold messagesSchema.
  destruct v as [[| | | |items|]|]; simpl; try (now apply refusal_single).
  pose proof (elementsSchema_sound items) as He.
  destruct (length items <? 1).
  - apply refusal_app_l; [|now apply sound_issues].
    apply refusal_single. discriminate.
  - destruct (elementsSchema items); simpl in *; [exact I | exact He].
Qed.

Lemma requestSchema_sound (json : JSON) : sound (requestSchema json).
Proof.
  unfold requestSchema.
  destruct json as [| | | | |fields]; simpl; try (now apply refusal_single).
  apply messagesSchema_sound.
Qed.

Lemma join_not_empty (sep : jsstring) (l : list jsstring) :
  l <> [] -> Forall (fun x => x <> []) l -> join sep l <> [].
Proof.
  intros Hne Hall. destruct l as [|x l]; [now elim Hne|].
  inversion Hall as [|? ? Hx _]; subst.
  destruct x as [|c x]; [now elim Hx|].
  simpl. destruct l; discriminate.
Qed.

Lemma refusal_message (dm : ZodIssue -> jsstring) (l : list ZodIssue) :
  (forall i, dm i <> []) -> refusal l ->
  join (lit ", ") (map (issueMessage dm) l) <> [].
Proof.
  intros Hdm [Hne Hw]. apply join_not_empty.
  - destruct l; [now elim Hne | discriminate].
  - apply Forall_map. rewrite Forall_forall in *.
    intros i Hi. specialize (Hw i Hi).
    destruct i; simpl; try apply Hdm. exact Hw.
Qed.

End RouteFacts.

Module RouteClaims.

Import Route WorkflowSpec RouteSpec RouteFacts.

(** C1, as the code has it: whatever the request body and whatever the
    collaborators do, the handler returns one of the two envelopes and
    never a mix of them or neither.  A success envelope carries the message
    and the usage of the workflow result and, as [runId], the one of the
    result when it has one and the identifier of the run otherwise; this
    [runId] is passed on as it is, so it is not empty when the identifier
    it comes from is not.  A failure envelope carries an error text.  When
    a collaborator itself throws a ZodError, the one [catch] clause answers
    with the messages of its issues joined by a comma and a space, whatever
    they are.  In every other case the error text is not empty, the
    messages the validator gives by default being not empty. *)
Theorem POST_returns_one_envelope (d : Deps) :
  let b := body (POST d) in
  (isSuccess b /\ ~ isFailure b
   /\ exists workflow run input result,
        recipeChatWorkflow d = Some workflow
        /\ createRunAsync workflow = inr run
        /\ start run input = inr (Succeeded result)
        /\ b_message b = Some (Chat.message result)
        /\ b_usage b = Chat.usage result
        /\ b_runId b = Some (match Chat.runId result with
                             | Some i => i
                             | None => runId run
                             end)
        /\ (match Chat.runId result with
            | Some i => i <> []
            | None => runId run <> []
            end -> exists i, b_runId b = Some i /\ i <> []))
  \/ (isFailure b /\ ~ isSuccess b
      /\ exists e,
           b_error b = Some e
           /\ (forall issues,
                 collaboratorThrows d = Some (ZodError issues) ->
                 e = join (lit ", ") (map (issueMessage (defaultMessage d)) issues))
           /\ ((forall issues, collaboratorThrows d <> Some (ZodError issues)) ->
               (forall i, defaultMessage d i <> []) ->
               e <> [])).
Proof.
  intros b. subst b. unfold POST, POST_try, collaboratorThrows.
  assert (Hfail : forall e status,
            isFailure (errorBody e status) /\ ~ isSuccess (errorBody e status)).
  { intros e status. split.
    - unfold isFailure. simpl. repeat split. discriminate.
    - intros [H _]. discriminate H. }
  assert (Hthrown : forall c : Caught,
            exists e,
              b_error (body (POST_catch d c)) = Some e
              /\ body (POST_catch d c) = errorBody e None
              /\ (forall issues,
                    Some c = Some (ZodError issues) ->
                    e = join (lit ", ")
                          (map (issueMessage (defaultMessage d)) issues))
              /\ ((forall issues, Some c <> Some (ZodError issues)) ->
                  (forall i, defaultMessage d i <> []) -> e <> [])).
  { intros [issues|e]; simpl; eexists; split; try reflexivity;
      split; try reflexivity; split.
    - intros issues' H. now injection H as <-.
    - intros H. now elim (H issues).
    - intros issues' H. discriminate H.
    - intros _ _. discriminate. }
  assert (Hfixed : forall e status,
            e <> [] ->
            exists e',
              b_error (errorBody e status) = Some e'
              /\ (forall issues,
                    @None Caught = Some (ZodError issues) ->
                    e' = join (lit ", ")
                           (map (issueMessage (defaultMessage d)) issues))
              /\ ((forall issues, @None Caught <> Some (ZodError issues)) ->
                  (forall i, defaultMessage d i <> []) -> e' <> [])).
  { intros e status He. exists e. split; [reflexivity|]. split.
    - intros issues H. discriminate H.
    - intros _ _. exact He. }
  destruct (req_json d) as [c|json].
  { right. destruct (Hthrown c) as (e & He & Hb & H1 & H2).
    rewrite Hb. destruct (Hfail e None) as [Hf Hs].
    split; [exact Hf|]. split; [exact Hs|]. exists e. now repeat split. }
  pose proof (requestSchema_sound json) as Hsound.
  destruct (requestSchema json) as [input|issues].
  2:{ right. destruct (Hfail (join (lit ", ")
                              (map (issueMessage (defaultMessage d)) issues)) None)
        as [Hf Hs].
      split; [exact Hf|]. split; [exact Hs|].
      eexists. split; [reflexivity|]. split.
      - intros issues' H. discriminate H.
      - intros _ Hdm. now apply refusal_message. }
  destruct (recipeChatWorkflow d) as [workflow|] eqn:Ew.
  2:{ right. destruct (Hfail WORKFLOW_MISSING None) as [Hf Hs].
      split; [exact Hf|]. split; [exact Hs|].
      apply Hfixed. discriminate. }
  destruct (createRunAsync workflow) as [c|run] eqn:Er.
  { right. destruct (Hthrown c) as (e & He & Hb & H1 & H2).
    rewrite Hb. destruct (Hfail e None) as [Hf Hs].
    split; [exact Hf|]. split; [exact Hs|]. exists e. now repeat split. }
  destruct (start run input) as [c|[result|status]] eqn:Es.
  - right. destruct (Hthrown c) as (e & He & Hb & H1 & H2).
    rewrite Hb. destruct (Hfail e None) as [Hf Hs].
    split; [exact Hf|]. split; [exact Hs|]. exists e. now repeat split.
  - left. simpl. split; [|split].
    + unfold isSuccess. simpl. repeat split; discriminate.
    + intros [H _]. now apply H.
    + exists workflow, run, input, result.
      repeat split; try assumption.
      intros H. eexists. split; [reflexivity|].
      unfold nullish. now destruct (Chat.runId result).
  - right. destruct (Hfail WORKFLOW_FAILED (Some status)) as [Hf Hs].
    split; [exact Hf|]. split; [exact Hs|].
    apply Hfixed. discriminate.
Qed.

Lemma POST_returns_one_envelope_witness :
  (isSuccess (body (POST (demoDeps namedAgent)))
   /\ b_runId (body (POST (demoDeps namedAgent))) = Some (lit "r1"))
  /\ exists e,
       b_error (body (POST (mkDeps (inr (JObj [])) None (fun _ => lit "Required"))))
       = Some e
       /\ e <> [].
Proof.
  split.
  - destruct (POST_returns_one_envelope (demoDeps namedAgent)) as [H|H].
    + split; [exact (proj1 H) | reflexivity].
    + destruct H as [[H _] _]. now elim H.
  - destruct (POST_returns_one_envelope
                (mkDeps (inr (JObj [])) None (fun _ => lit "Required")))
      as [H|H].
    + destruct H as [[H _] _]. discriminate H.
    + destruct H as (_ & _ & e & He & _ & Hne).
      exists e. split; [exact He|].
      apply Hne; [intros issues; discriminate | intros i; discriminate].
Defined.

(** C1 as stated fails on the [runId]: with an agent whose response
    carries the empty string as identifier, the step reports it, and the
    handler returns a success envelope whose [runId] is empty.  It fails on
    the error text too when a collaborator throws a ZodError without
    issues: the handler answers 400 with the empty string as error. *)
Lemma POST_empty_runId_counterexample :
  (let b := body (POST (demoDeps namelessAgent)) in
   isSuccess b
   /\ b_runId b = Some []
   /\ ~ (exists i, b_runId b = Some i /\ i <> []))
  /\ (let r := POST (mkDeps (inr demoBody) (Some rejecting)
                            (fun _ => lit "Required")) in
      isFailure (body r)
      /\ b_error (body r) = Some []
      /\ httpStatus r = 400
      /\ ~ (exists e, b_error (body r) = Some e /\ e <> [])).
Proof.
  split.
  - split; [|split].
    + unfold isSuccess. vm_compute. repeat split; discriminate.
    + reflexivity.
    + intros (i & Hi & Hne). vm_compute in Hi. injection Hi as <-.
      now apply Hne.
  - split; [|split; [|split]].
    + unfold isFailure. vm_compute. repeat split. discriminate.
    + reflexivity.
    + reflexivity.
    + intros (e & He & Hne). vm_compute in He. injection He as <-.
      now apply Hne.
Qed.

End RouteClaims.

(** ** Running the claims about the segmenter *)

Module SegmenterWitnesses.

Import SegmenterSpec TrimFacts SegmenterFacts SegmenterClaims.

Lemma segment_preserves_order_witness :
  parseMessageContent blanks = []
  /\ [lit "a"; lit "b"] <> [].
Proof.
  split.
  - apply (proj1 (proj2 (proj2 (segment_preserves_order blanks)))).
    vm_compute. repeat constructor.
  - apply (proj2 (proj2 (proj2 (proj2 (segment_preserves_order sample))))).
    vm_compute. right. left. reflexivity.
Defined.

Lemma segment_trims_lines_witness :
  processLine (mkAcc [] [lit "a"]) (lit "   ") = mkAcc [list_ [lit "a"]] []
  /\ processLine empty ([9]%N ++ lit "## Title" ++ lit "  ")
     = processLine empty (lit "## Title")
  /\ clean_segment (heading 1 (lit "Title")).
Proof.
  destruct segment_trims_lines as (Hblank & Hsur & _ & _ & _ & Hclean).
  split; [|split].
  - rewrite (proj2 (Hblank (mkAcc [] [lit "a"]) (lit "   ") eq_refl)).
    reflexivity.
  - apply Hsur; reflexivity.
  - apply (Hclean sample). vm_compute. left. reflexivity.
Defined.

End SegmenterWitnesses.

(** ** More about the segmenter *)

Module SegmenterMoreFacts.

Import SegmenterSpec SegmenterMore TrimFacts SegmenterFacts SegmenterInvariant.

Lemma processLine_act (a : Acc) (rawLine : jsstring) :
  processLine a rawLine = act (classify (trim rawLine)) a.
Proof.
  unfold processLine, classify.
  destruct (trim rawLine) as [|c r]; [reflexivity|].
  destruct (JS.eqb (c :: r) (lit "---")); [reflexivity|].
  destruct (headingMatch (c :: r)) as [[level text]|]; [reflexivity|].
  destruct (bulletItem (c :: r)); [reflexivity|].
  destruct (orderedItem (c :: r)); reflexivity.
Qed.

(** The lines act through their trimmed text only. *)
Lemma fold_trim_ext (l1 l2 : list jsstring) (a : Acc) :
  map trim l1 = map trim l2 ->
  fold_left processLine l1 a = fold_left processLine l2 a.
Proof.
  revert l2 a. induction l1 as [|x l1 IH]; intros [|y l2] a H;
    try discriminate; [reflexivity|].
  simpl in H. injection H as Hxy Hrest. simpl.
  rewrite (processLine_act a x), (processLine_act a y), Hxy.
  now apply IH.
Qed.

Lemma parseLines_trim_ext (l1 l2 : list jsstring) :
  map trim l1 = map trim l2 -> parseLines l1 = parseLines l2.
Proof.
  intros H. unfold parseLines. now rewrite (fold_trim_ext l1 l2).
Qed.

(** Segments emitted earlier stay in front, whatever comes. *)
Lemma act_prefix (k : Kind) (pre segs : list MessageSegment) (buf : list jsstring) :
  act k (mkAcc (pre ++ segs) buf)
  = mkAcc (pre ++ segments (act k (mkAcc segs buf)))
          (listBuffer (act k (mkAcc segs buf))).
Proof.
  destruct k as [|seg|item]; simpl; unfold flushList, push, pushItem; simpl.
  - destruct buf; simpl; [reflexivity|]. now rewrite app_assoc.
  - destruct buf; simpl; now rewrite <- !app_assoc.
  - reflexivity.
Qed.

Lemma fold_prefix (lines : list jsstring) (pre segs : list MessageSegment)
    (buf : list jsstring) :
  fold_left processLine lines (mkAcc (pre ++ segs) buf)
  = mkAcc (pre ++ segments (fold_left processLine lines (mkAcc segs buf)))
          (listBuffer (fold_left processLine lines (mkAcc segs buf))).
Proof.
  revert segs buf. induction lines as [|l lines IH]; intros segs buf; simpl.
  - reflexivity.
  - rewrite !processLine_act, act_prefix.
    destruct (act (classify (trim l)) (mkAcc segs buf)) as [segs' buf'].
    simpl. apply IH.
Qed.

Lemma flushList_prefix (pre segs : list MessageSegment) (buf : list jsstring) :
  segments (flushList (mkAcc (pre ++ segs) buf))
  = pre ++ segments (flushList (mkAcc segs buf)).
Proof.
  unfold flushList. destruct buf; simpl; [reflexivity|]. now rewrite app_assoc.
Qed.

Lemma flushList_idle (a : Acc) : listBuffer (flushList a) = [].
Proof.
  unfold flushList. destruct (listBuffer a) eqn:E; simpl; [exact E | reflexivity].
Qed.

Lemma parseLines_app_blank (l1 l2 : list jsstring) (b : jsstring) :
  blank b = true ->
  parseLines (l1 ++ b :: l2) = parseLines l1 ++ parseLines l2.
Proof.
  intros Hb. unfold parseLines. rewrite fold_left_app. simpl.
  rewrite (processLine_blank _ b Hb).
  pose proof (flushList_idle (fold_left processLine l1 (mkAcc [] []))) as Hidle.
  destruct (flushList (fold_left processLine l1 (mkAcc [] []))) as [segs buf].
  simpl in Hidle. subst buf. simpl.
  rewrite <- (app_nil_r segs) at 1.
  rewrite fold_prefix.
  destruct (fold_left processLine l2 (mkAcc [] [])) as [segs2 buf2].
  apply flushList_prefix.
Qed.

End SegmenterMoreFacts.

(** ** The split into lines *)

Module SplitFacts.

Import SegmenterSpec SegmenterMore TrimFacts.

Lemma list_ind2 (A : Type) (P : list A -> Prop) :
  P [] -> (forall a, P [a]) ->
  (forall a b l, P l -> P (b :: l) -> P (a :: b :: l)) ->
  forall l, P l.
Proof.
  intros H0 H1 H2 l.
  enough (H : P l /\ forall a, P (a :: l)) by apply H.
  induction l as [|b l [IHl IHc]]; split; auto.
Qed.

Lemma splitLF_cons (s : jsstring) : exists l ls, splitLF s = l :: ls.
Proof.
  destruct s as [|c s]; simpl; [now eexists; eexists|].
  destruct (c =? LF)%N; [now eexists; eexists|].
  destruct (splitLF s); now eexists; eexists.
Qed.

Lemma splitLF_first_empty (b : char) (s : jsstring) (ls : list jsstring) :
  splitLF (b :: s) = [] :: ls -> (b =? LF)%N = true.
Proof.
  simpl. destruct (b =? LF)%N; [reflexivity|].
  destruct (splitLF s); discriminate.
Qed.

Lemma stripCR_cons (c : char) (l : jsstring) :
  l <> [] -> stripCR (c :: l) = c :: stripCR l.
Proof. destruct l; [intros H; now elim H | reflexivity]. Qed.

(** [split] cuts at every LF and takes the CR before it along. *)
Lemma split_lines_chop (s : jsstring) : split_lines s = chop (splitLF s).
Proof.
  induction s as [|a|a b s IHs IHbs] using list_ind2.
  - reflexivity.
  - simpl. destruct (a =? LF)%N; reflexivity.
  - change (split_lines (a :: b :: s)) with
      (if (a =? LF)%N then [] :: split_lines (b :: s)
       else if (a =? CR)%N && (b =? LF)%N then [] :: split_lines s
            else match split_lines (b :: s) with
                 | l :: ls => (a :: l) :: ls
                 | [] => [[a]]
                 end).
    change (splitLF (a :: b :: s)) with
      (if (a =? LF)%N then [] :: splitLF (b :: s)
       else match splitLF (b :: s) with
            | l :: ls => (a :: l) :: ls
            | [] => [[a]]
            end).
    destruct (a =? LF)%N eqn:Ea.
    { rewrite IHbs. destruct (splitLF_cons (b :: s)) as (l & ls & ->).
      reflexivity. }
    destruct ((a =? CR)%N && (b =? LF)%N) eqn:Ecr.
    { apply andb_prop in Ecr as [Ha Hb].
      apply N.eqb_eq in Ha. subst a.
      rewrite IHs. simpl. rewrite Hb.
      destruct (splitLF_cons s) as (l & ls & ->). reflexivity. }
    rewrite IHbs.
    destruct (splitLF (b :: s)) as [|l ls] eqn:E; [reflexivity|].
    destruct ls as [|l2 ls]; [reflexivity|].
    change (chop ((a :: l) :: l2 :: ls))
      with (stripCR (a :: l) :: chop (l2 :: ls)).
    change (chop (l :: l2 :: ls)) with (stripCR l :: chop (l2 :: ls)).
    destruct l as [|c l].
    + apply splitLF_first_empty in E. rewrite E, andb_true_r in Ecr.
      simpl. now rewrite Ecr.
    + now rewrite (@stripCR_cons a (c :: l)) by discriminate.
Qed.

Lemma stripCR_split (l : jsstring) :
  exists w, l = stripCR l ++ w /\ blank w = true.
Proof.
  induction l as [|c l (w & Hw & Hb)].
  - now exists [].
  - destruct l as [|d l].
    + simpl. destruct (c =? CR)%N eqn:E.
      * apply N.eqb_eq in E. subst c. now exists [CR].
      * now exists [].
    + exists w. split; [|exact Hb].
      rewrite (@stripCR_cons c (d :: l)) by discriminate.
      rewrite <- app_comm_cons. f_equal. exact Hw.
Qed.

Lemma trim_stripCR (l : jsstring) : trim (stripCR l) = trim l.
Proof.
  destruct (stripCR_split l) as (w & Hw & Hb).
  rewrite Hw at 2.
  symmetry. apply (trim_surrounded [] (stripCR l) w); [reflexivity | exact Hb].
Qed.

Lemma map_trim_chop (lines : list jsstring) :
  map trim (chop lines) = map trim lines.
Proof.
  induction lines as [|l lines IH]; [reflexivity|].
  destruct lines as [|l2 lines]; [reflexivity|].
  change (chop (l :: l2 :: lines)) with (stripCR l :: chop (l2 :: lines)).
  change (map trim (stripCR l :: chop (l2 :: lines)))
    with (trim (stripCR l) :: map trim (chop (l2 :: lines))).
  rewrite trim_stripCR, IH. reflexivity.
Qed.

(** For the segmenter the CR before a LF makes no difference. *)
Lemma parse_splitLF (content : jsstring) :
  parseMessageContent content = parseLines (splitLF content).
Proof.
  unfold parseMessageContent.
  apply SegmenterMoreFacts.parseLines_trim_ext.
  rewrite split_lines_chop. apply map_trim_chop.
Qed.

Lemma splitLF_app (a b : jsstring) :
  splitLF (a ++ LF :: b) = splitLF a ++ splitLF b.
Proof.
  induction a as [|c a IH]; simpl; [reflexivity|].
  destruct (c =? LF)%N; [now rewrite IH|].
  rewrite IH. destruct (splitLF_cons a) as (l & ls & ->). reflexivity.
Qed.

Lemma length_chop (lines : list jsstring) : length (chop lines) = length lines.
Proof.
  induction lines as [|l lines IH]; [reflexivity|].
  destruct lines as [|l2 lines]; [reflexivity|].
  change (chop (l :: l2 :: lines)) with (stripCR l :: chop (l2 :: lines)).
  change (length (stripCR l :: chop (l2 :: lines)))
    with (S (length (chop (l2 :: lines)))).
  now rewrite IH.
Qed.

Lemma length_splitLF (s : jsstring) : length (splitLF s) = S (count_LF s).
Proof.
  unfold count_LF. induction s as [|c s IH]; [reflexivity|].
  change (filter (N.eqb LF) (c :: s))
    with (if (LF =? c)%N then c :: filter (N.eqb LF) s
          else filter (N.eqb LF) s).
  change (splitLF (c :: s))
    with (if (c =? LF)%N then [] :: splitLF s
          else match splitLF s with
               | l :: ls => (c :: l) :: ls
               | [] => [[c]]
               end).
  rewrite (N.eqb_sym LF c).
  destruct (c =? LF)%N; [simpl length; now rewrite IH|].
  destruct (splitLF_cons s) as (l & ls & E). rewrite E in *. exact IH.
Qed.

Lemma splitLF_no_LF (s : jsstring) :
  Forall (fun l => ~ In LF l) (splitLF s).
Proof.
  induction s as [|c s IH]; simpl; [constructor; [tauto|constructor]|].
  destruct (c =? LF)%N eqn:E; [constructor; [tauto|exact IH]|].
  destruct (splitLF s) as [|l ls]; [constructor; [|constructor]|].
  - intros [->|[]]. now rewrite N.eqb_refl in E.
  - inversion IH as [|? ? Hl Hls]; subst. constructor; [|exact Hls].
    intros [->|Hin]; [now rewrite N.eqb_refl in E | now apply Hl].
Qed.

Lemma stripCR_incl (l : jsstring) (c : char) : In c (stripCR l) -> In c l.
Proof.
  destruct (stripCR_split l) as (w & Hw & _). intros H.
  rewrite Hw. apply in_or_app. now left.
Qed.

Lemma chop_no_LF (lines : list jsstring) :
  Forall (fun l => ~ In LF l) lines -> Forall (fun l => ~ In LF l) (chop lines).
Proof.
  induction lines as [|l lines IH]; [constructor|].
  intros H. inversion H as [|? ? Hl Hls]; subst.
  destruct lines as [|l2 lines]; [exact H|].
  change (chop (l :: l2 :: lines)) with (stripCR l :: chop (l2 :: lines)).
  constructor; [|now apply IH].
  intros Hin. apply Hl. now apply stripCR_incl.
Qed.

Lemma join_splitLF (s : jsstring) : join [LF] (splitLF s) = s.
Proof.
  induction s as [|c s IH]; [reflexivity|].
  simpl splitLF. destruct (c =? LF)%N eqn:E.
  - apply N.eqb_eq in E. subst c.
    destruct (splitLF_cons s) as (l & ls & El). rewrite El in *.
    change (join [LF] ([] :: l :: ls)) with (LF :: join [LF] (l :: ls)).
    now rewrite IH.
  - destruct (splitLF_cons s) as (l & ls & El). rewrite El in *.
    destruct ls as [|l2 ls].
    + simpl in *. now rewrite IH.
    + change (join [LF] ((c :: l) :: l2 :: ls))
        with (c :: (l ++ [LF] ++ join [LF] (l2 :: ls))).
      change (join [LF] (l :: l2 :: ls))
        with (l ++ [LF] ++ join [LF] (l2 :: ls)) in IH.
      now rewrite IH.
Qed.

Lemma stripCR_no_CR (l : jsstring) : ~ In CR l -> stripCR l = l.
Proof.
  induction l as [|c l IH]; [reflexivity|].
  intros H. destruct l as [|d l].
  - simpl. destruct (c =? CR)%N eqn:E; [|reflexivity].
    apply N.eqb_eq in E. subst c. elim H. now left.
  - rewrite (@stripCR_cons c (d :: l)) by discriminate. f_equal. apply IH.
    intros Hin. apply H. now right.
Qed.

Lemma splitLF_incl (s : jsstring) (c : char) :
  Forall (fun l => In c l -> In c s) (splitLF s).
Proof.
  induction s as [|x s IH]; simpl; [constructor; [tauto|constructor]|].
  assert (Hw : Forall (fun l => In c l -> In c (x :: s)) (splitLF s)).
  { eapply Forall_impl; [|exact IH]. intros l Hl Hin. right. now apply Hl. }
  destruct (x =? LF)%N; [constructor; [intros []|exact Hw]|].
  destruct (splitLF s) as [|l ls]; [constructor; [|constructor]|].
  - intros [->|[]]. now left.
  - inversion Hw as [|? ? Hl Hls]; subst. constructor; [|exact Hls].
    intros [->|Hin]; [now left | now apply Hl].
Qed.

Lemma chop_no_CR (lines : list jsstring) :
  Forall (fun l => ~ In CR l) lines -> chop lines = lines.
Proof.
  induction lines as [|l lines IH]; [reflexivity|].
  intros H. inversion H as [|? ? Hl Hls]; subst.
  destruct lines as [|l2 lines]; [reflexivity|].
  change (chop (l :: l2 :: lines)) with (stripCR l :: chop (l2 :: lines)).
  now rewrite stripCR_no_CR, IH.
Qed.

End SplitFacts.

(** ** What the segmenter keeps, line by line *)

Module SegmenterInvariants.

Import SegmenterSpec SegmenterMore TrimFacts SegmenterFacts SegmenterInvariant.
Import SegmenterMoreFacts SplitFacts.

Section Kept.

Variable P : MessageSegment -> Prop.
Variable Q : jsstring -> Prop.
Variable lines : list jsstring.

Hypothesis block_kept :
  forall rawLine seg,
    In rawLine lines -> classify (trim rawLine) = KBlock seg -> P seg.
Hypothesis item_kept :
  forall rawLine item,
    In rawLine lines -> classify (trim rawLine) = KItem item -> Q item.
Hypothesis list_kept :
  forall items, items <> [] -> Forall Q items -> P (list_ items).

Lemma kept_flushList (a : Acc) : kept P Q a -> kept P Q (flushList a).
Proof.
  intros [Hs Hb]. unfold flushList.
  destruct (listBuffer a) as [|i buf] eqn:E.
  { split; [exact Hs | rewrite E; constructor]. }
  split; simpl; [|constructor].
  apply Forall_app. split; [exact Hs|].
  constructor; [|constructor]. apply list_kept; [discriminate | exact Hb].
Qed.

Lemma kept_fold (rest : list jsstring) (a : Acc) :
  incl rest lines -> kept P Q a -> kept P Q (fold_left processLine rest a).
Proof.
  revert a. induction rest as [|l rest IH]; intros a Hin Ha; [exact Ha|].
  simpl. apply IH; [intros x Hx; apply Hin; now right|].
  rewrite processLine_act.
  destruct (classify (trim l)) as [|seg|item] eqn:E; simpl.
  - now apply kept_flushList.
  - destruct (kept_flushList Ha) as [Hs Hb]. split; simpl; [|exact Hb].
    apply Forall_app. split; [exact Hs|]. constructor; [|constructor].
    apply block_kept with l; [apply Hin; now left | exact E].
  - destruct Ha as [Hs Hb]. split; simpl; [exact Hs|].
    apply Forall_app. split; [exact Hb|]. constructor; [|constructor].
    apply item_kept with l; [apply Hin; now left | exact E].
Qed.

Lemma kept_parseLines : Forall P (parseLines lines).
Proof.
  unfold parseLines.
  apply kept_flushList, kept_fold; [apply incl_refl | split; constructor].
Qed.

End Kept.

Lemma classify_heading (line : jsstring) (seg : MessageSegment) :
  classify line = KBlock seg -> heading_ok seg.
Proof.
  unfold classify. destruct line as [|c r]; [discriminate|].
  destruct (JS.eqb (c :: r) (lit "---")).
  { intros H; injection H as <-. exact I. }
  destruct (headingMatch (c :: r)) as [[level text]|] eqn:Eh.
  - intros H; injection H as <-. simpl.
    unfold headingMatch in Eh.
    destruct ((1 <=? length (takeWhile (N.eqb HASH) (c :: r)))
              && (length (takeWhile (N.eqb HASH) (c :: r)) <=? 4)) eqn:En;
      [|discriminate].
    destruct (dropWhile (N.eqb HASH) (c :: r)) as [|d after]; [discriminate|].
    destruct (is_space d); [|discriminate].
    destruct (existsb is_line_terminator (dropWhile is_space (d :: after)))
      eqn:Et; [discriminate|].
    injection Eh as <- <-.
    apply andb_prop in En as [H1 H4].
    apply Nat.leb_le in H1. apply Nat.leb_le in H4.
    split; [exact (conj H1 H4) | exact Et].
  - destruct (bulletItem (c :: r)); [discriminate|].
    destruct (orderedItem (c :: r)); [discriminate|].
    intros H; injection H as <-. exact I.
Qed.

Lemma takeWhile_stop (p : char -> bool) (c : char) (r : jsstring) :
  p c = false -> takeWhile p (c :: r) = [].
Proof. intros H. simpl. now rewrite H. Qed.

Lemma classify_plain (c : char) (r : jsstring) :
  plain (c :: r) = true -> classify (c :: r) = KBlock (paragraph (c :: r)).
Proof.
  unfold plain. intros H. apply negb_true_iff in H.
  apply orb_false_elim in H as [H Hdigit].
  apply orb_false_elim in H as [H Hstar].
  apply orb_false_elim in H as [Hhash Hdash].
  unfold classify.
  assert (E1 : JS.eqb (c :: r) (lit "---") = false).
  { change (lit "---") with [DASH; DASH; DASH]. simpl JS.eqb.
    now rewrite Hdash. }
  rewrite E1.
  assert (E2 : headingMatch (c :: r) = None).
  { unfold headingMatch. rewrite takeWhile_stop; [reflexivity|].
    now rewrite N.eqb_sym. }
  rewrite E2.
  assert (E3 : bulletItem (c :: r) = None).
  { unfold bulletItem. destruct r; [reflexivity|]. now rewrite Hdash, Hstar. }
  rewrite E3.
  assert (E4 : orderedItem (c :: r) = None).
  { unfold orderedItem. now rewrite takeWhile_stop. }
  now rewrite E4.
Qed.

Lemma fold_plain (lines : list jsstring) (segs : list MessageSegment) :
  Forall (fun l => plain (trim l) = true) lines ->
  fold_left processLine lines (mkAcc segs [])
  = mkAcc (segs ++ map paragraph (filter nonEmpty (map trim lines))) [].
Proof.
  intros H. revert segs. induction H as [|l lines Hl _ IH]; intros segs; simpl.
  - now rewrite app_nil_r.
  - rewrite processLine_act.
    destruct (trim l) as [|c r] eqn:E.
    + simpl. apply IH.
    + rewrite (classify_plain c r Hl). simpl.
      unfold push, flushList. simpl. rewrite IH.
      now rewrite <- app_assoc.
Qed.

Lemma splitLF_single (w : jsstring) : ~ In LF w -> splitLF w = [w].
Proof.
  induction w as [|c w IH]; [reflexivity|].
  intros H. simpl. destruct (c =? LF)%N eqn:E.
  - apply N.eqb_eq in E. subst c. elim H. now left.
  - rewrite IH; [reflexivity|]. intros Hin. apply H. now right.
Qed.

Lemma splitLF_crlf (s : jsstring) : splitLF (crlf s) = padCR (splitLF s).
Proof.
  induction s as [|c s IH]; [reflexivity|].
  unfold crlf. simpl flat_map. fold (crlf s).
  destruct (splitLF_cons s) as (l & ls & El).
  destruct (c =? LF)%N eqn:E.
  - change (splitLF ([CR; LF] ++ crlf s)) with ([CR] :: splitLF (crlf s)).
    simpl splitLF. rewrite E, IH, El. reflexivity.
  - change (splitLF ([c] ++ crlf s))
      with (if (c =? LF)%N then [] :: splitLF (crlf s)
            else match splitLF (crlf s) with
                 | l :: ls => (c :: l) :: ls
                 | [] => [[c]]
                 end).
    simpl splitLF. rewrite E, IH, El.
    destruct ls; reflexivity.
Qed.

Lemma map_trim_padCR (lines : list jsstring) :
  map trim (padCR lines) = map trim lines.
Proof.
  induction lines as [|l lines IH]; [reflexivity|].
  destruct lines as [|l2 lines]; [reflexivity|].
  change (padCR (l :: l2 :: lines)) with ((l ++ [CR]) :: padCR (l2 :: lines)).
  change (map trim ((l ++ [CR]) :: padCR (l2 :: lines)))
    with (trim (l ++ [CR]) :: map trim (padCR (l2 :: lines))).
  rewrite IH. simpl map. f_equal.
  apply (trim_surrounded [] l [CR]); reflexivity.
Qed.

Lemma length_atoms (segs : list MessageSegment) :
  Forall good_segment segs -> length segs <= length (flatten segs).
Proof.
  induction 1 as [|seg segs [_ Hne] _ IH]; [reflexivity|].
  unfold flatten in *. simpl. rewrite length_app.
  assert (1 <= length (atoms seg)).
  { destruct seg as [| |items|]; simpl; try lia.
    destruct items; [now elim Hne | simpl; lia]. }
  lia.
Qed.

Lemma length_lineAtoms (lines : list jsstring) :
  length (flat_map lineAtoms lines) <= length lines.
Proof.
  induction lines as [|l lines IH]; [reflexivity|].
  simpl. rewrite length_app.
  pose proof (lineAtoms_at_most_one l). lia.
Qed.

End SegmenterInvariants.

(** ** Further properties of the segmenter *)

Module SegmenterExtras.

Import SegmenterSpec SegmenterMore TrimFacts SegmenterFacts SegmenterInvariant.
Import SegmenterMoreFacts SplitFacts SegmenterInvariants.

(** X1: every heading emitted has a level from one to four, and its text
    holds no line terminator (no LF, CR, LS or PS). *)
Theorem heading_levels_bounded (content : jsstring) (seg : MessageSegment) :
  In seg (parseMessageContent content) -> heading_ok seg.
Proof.
  revert seg. apply Forall_forall. unfold parseMessageContent.
  apply kept_parseLines with (Q := fun _ => True).
  - intros rawLine seg _. apply classify_heading.
  - trivial.
  - intros items _ _. exact I.
Qed.

Lemma heading_levels_bounded_witness :
  heading_ok (heading 1 (lit "Title")).
Proof.
  apply (heading_levels_bounded sample). vm_compute. left. reflexivity.
Defined.

(** X2: there are never more segments than lines, and never more headings,
    paragraphs, dividers and list items together than lines. *)
Theorem segments_bounded_by_lines (content : jsstring) :
  length (parseMessageContent content) <= length (flatten (parseMessageContent content))
  /\ length (flatten (parseMessageContent content)) <= length (split_lines content)
  /\ length (split_lines content) = S (count_LF content).
Proof.
  split; [|split].
  - apply length_atoms. apply good_parseLines.
  - unfold parseMessageContent. rewrite flatten_parseLines.
    apply length_lineAtoms.
  - rewrite split_lines_chop, length_chop. apply length_splitLF.
Qed.

(** X3: a text none of whose trimmed lines starts with [#], [-], [*] or a
    digit gives one paragraph for each line that is not blank, in order,
    holding the trimmed line. *)
Theorem plain_text_paragraphs (content : jsstring) :
  Forall (fun l => plain (trim l) = true) (split_lines content) ->
  parseMessageContent content
  = map paragraph (filter nonEmpty (map trim (split_lines content))).
Proof.
  intros H. unfold parseMessageContent, parseLines.
  now rewrite fold_plain.
Qed.

Lemma plain_text_paragraphs_witness :
  parseMessageContent (lit " Heat the pan. " ++ [CR; LF; LF] ++ lit "Add oil")
  = [paragraph (lit "Heat the pan."); paragraph (lit "Add oil")].
Proof.
  rewrite plain_text_paragraphs; [reflexivity|].
  vm_compute. repeat constructor.
Defined.

(** X4: a blank line separates: a text, a line feed, a line of white
    space only, a line feed and a second text give the segments of the
    first text followed by the segments of the second; a list is never
    carried over the blank line. *)
Theorem blank_line_separates (a w b : jsstring) :
  blank w = true -> ~ In LF w ->
  parseMessageContent (a ++ LF :: w ++ LF :: b)
  = parseMessageContent a ++ parseMessageContent b.
Proof.
  intros Hb Hw. rewrite !parse_splitLF.
  rewrite splitLF_app, splitLF_app, (splitLF_single w Hw).
  now apply parseLines_app_blank.
Qed.

Lemma blank_line_separates_witness :
  parseMessageContent (lit "- a" ++ LF :: lit "  " ++ LF :: lit "- b")
  = [list_ [lit "a"]] ++ [list_ [lit "b"]].
Proof.
  rewrite blank_line_separates; [reflexivity | reflexivity |].
  vm_compute. intros [H|[H|[]]]; discriminate H.
Defined.

(** X5: line endings do not matter: the text with every LF turned into
    CR LF gives the same segments. *)
Theorem crlf_same_segments (content : jsstring) :
  parseMessageContent (crlf content) = parseMessageContent content.
Proof.
  rewrite !parse_splitLF. apply parseLines_trim_ext.
  rewrite splitLF_crlf. apply map_trim_padCR.
Qed.

(** X6: the split into lines cuts at the line feeds only: no line holds a
    LF, and for a text without CR joining the lines with LF gives the text
    back. *)
Theorem split_lines_round_trip (content : jsstring) :
  Forall (fun l => ~ In LF l) (split_lines content)
  /\ (~ In CR content -> join [LF] (split_lines content) = content).
Proof.
  rewrite split_lines_chop. split.
  - apply chop_no_LF, splitLF_no_LF.
  - intros H. rewrite chop_no_CR; [apply join_splitLF|].
    eapply Forall_impl; [|apply (splitLF_incl content CR)].
    intros l Hl Hin. apply H. now apply Hl.
Qed.

Lemma split_lines_round_trip_witness :
  join [LF] (split_lines sample) = sample.
Proof.
  apply (proj2 (split_lines_round_trip sample)).
  vm_compute. intuition discriminate.
Defined.

End SegmenterExtras.

(** ** Further properties of the page *)

Module PageExtras.

Import Page PageSpec PageMore PageFacts View SegmenterSpec TrimFacts.

(** X7: the submit button is disabled exactly when submitting would do
    nothing: while loading, or while the input is empty or white space
    only, [handleSubmit] leaves the state as it is and sends no request, and
    otherwise it sends one. *)
Theorem submit_disabled_iff_dropped (E : Env) (st : State) :
  (submitDisabled st = true <-> handleSubmit_start E st = (st, None))
  /\ (submitDisabled st = false <->
      exists st2 p, handleSubmit_start E st = (st2, Some p))
  /\ (blank (input st) = true -> handleSubmit_start E st = (st, None)).
Proof.
  unfold submitDisabled, handleSubmit_start.
  assert (Hb : blank (input st) = true -> isEmpty (trim (input st)) = true).
  { intros H. now rewrite trim_blank. }
  rewrite (orb_comm (isLoading st)).
  destruct (isEmpty (trim (input st)) || isLoading st) eqn:E1.
  - split; [tauto|]. split; [|reflexivity].
    split; [discriminate|]. intros (st2 & p & H). discriminate.
  - split; [split; [discriminate|]; intros H; now inversion H|].
    split; [split; [|reflexivity]; intros _; simpl; now eexists; eexists|].
    intros H. apply Hb in H. rewrite H in E1. discriminate.
Qed.

Lemma submit_disabled_iff_dropped_witness :
  handleSubmit_start demoEnv (typed (lit "  ")) = (typed (lit "  "), None).
Proof.
  apply (submit_disabled_iff_dropped demoEnv (typed (lit "  "))).
  reflexivity.
Defined.

(** X8: however the awaited call ends, the continuation of [handleSubmit]
    ends normally (the promise of the handler is never rejected) with the
    loading flag cleared, and it writes nothing to the store. *)
Theorem settle_always_ends_loading (E : Env) (p : Pending) (r : FetchOutcome)
    (st : State) :
  exists st3,
    handleSubmit_settle E p r st = Normal st3
    /\ isLoading st3 = false
    /\ storage st3 = storage st
    /\ isHydrated st3 = isHydrated st.
Proof.
  unfold handleSubmit_settle, handleSubmit_try.
  destruct r as [e|e|[|o]]; simpl; try (eexists; repeat split; reflexivity).
  destruct (p_error o); simpl; [eexists; repeat split; reflexivity|].
  destruct (p_runId o); simpl; eexists; repeat split; reflexivity.
Qed.

(** X9: a request that is sent carries the conversation of before in its
    order, each message as role and content only, followed by the user
    message, whose content is the input trimmed: it is not empty and has no
    white space at either end. *)
Theorem request_carries_conversation (E : Env) (st st2 : State) (p : Pending) :
  handleSubmit_start E st = (st2, Some p) ->
  requestMessages p
  = map (fun m => Chat.mkChatMessage (role m) (content m)) (messages st)
    ++ [Chat.mkChatMessage Chat.user (trim (input st))]
  /\ clean (trim (input st))
  /\ length (requestMessages p) = S (length (messages st)).
Proof.
  intros H.
  assert (Hne : isEmpty (trim (input st)) = false).
  { unfold handleSubmit_start in H.
    destruct (isEmpty (trim (input st))); [discriminate | reflexivity]. }
  destruct (handleSubmit_start_sent E st H) as (Hu & Hopt & _).
  unfold requestMessages. rewrite Hopt, map_app, Hu. simpl.
  split; [reflexivity|]. split.
  - destruct (trim_clean (input st)) as [E0|Hc]; [|exact Hc].
    rewrite E0 in Hne. discriminate.
  - rewrite length_app, length_map. simpl. lia.
Qed.

Lemma request_carries_conversation_witness :
  requestMessages demoPending
  = [Chat.mkChatMessage Chat.assistant WELCOME_CONTENT;
     Chat.mkChatMessage Chat.user (lit "hi")].
Proof.
  apply (@request_carries_conversation demoEnv (typed (lit " hi "))
           (fst (handleSubmit_start demoEnv (typed (lit " hi "))))).
  reflexivity.
Defined.

(** X10: loading reads the store and never writes it, and sets the
    hydration flag exactly where there is a window; and the persisting
    effect, run before the load, leaves the store as it is. *)
Theorem load_never_writes (E : Env) (stored : option jsstring) (st : State) :
  load E stored = Normal st ->
  storage st = stored
  /\ isHydrated st = hasWindow E
  /\ persist E (initialState E stored) = initialState E stored.
Proof.
  unfold load, hydrate, persist.
  destruct (hasWindow E); simpl.
  { destruct stored as [[|c raw]|]; simpl;
      try (intros H; injection H as <-; repeat split).
    destruct (JSON_parse E (c :: raw)) as [[| | | |[|x items]|]|]; simpl;
      intros H; injection H as <-; repeat split. }
  intros H; injection H as <-. repeat split.
Qed.

Lemma load_never_writes_witness :
  persist demoEnv (initialState demoEnv (Some (lit "42")))
  = initialState demoEnv (Some (lit "42")).
Proof.
  destruct (hydrate_normal demoEnv (initialState demoEnv (Some (lit "42"))))
    as [st Hst].
  exact (proj2 (proj2 (@load_never_writes demoEnv (Some (lit "42")) st Hst))).
Defined.

(** X11: saving what was loaded changes nothing of what is loaded next:
    where there is a window and the text [JSON.stringify] gives for the
    loaded conversation is not empty and parses back to that conversation,
    the persisting effect after a load writes a store from which the next
    load, with whatever identifiers it draws, returns the same
    conversation. *)
Theorem save_after_load_round_trip (E E2 : Env) (stored : option jsstring)
    (st : State) (items : list JSON) :
  hasWindow E = true -> hasWindow E2 = true ->
  load E stored = Normal st ->
  JSON_stringify E (messages st) <> [] ->
  JSON_parse E2 (JSON_stringify E (messages st)) = Some (JArr items) ->
  map (asUIMessage E2) items = messages st ->
  exists st2,
    load E2 (storage (persist E st)) = Normal st2
    /\ messages st2 = messages st.
Proof.
  intros Hw Hw2 Hload Hne Hparse Hitems.
  destruct (load_never_writes E stored Hload) as (_ & Hh & _).
  assert (Hmsgs : messages st <> []).
  { revert Hload. unfold load, hydrate. rewrite Hw. simpl.
    destruct stored as [[|c raw]|]; simpl;
      try (intros H; injection H as <-; discriminate).
    destruct (JSON_parse E (c :: raw)) as [[| | | |[|x l]|]|]; simpl;
      intros H; injection H as <-; discriminate. }
  unfold persist. rewrite Hh, Hw. simpl.
  unfold load, hydrate. rewrite Hw2. simpl.
  destruct (JSON_stringify E (messages st)) as [|c raw] eqn:Es;
    [now elim Hne|].
  rewrite Hparse.
  destruct items as [|x items].
  { simpl in Hitems. now elim Hmsgs. }
  simpl. eexists. split; [reflexivity|]. exact Hitems.
Qed.

Lemma save_after_load_round_trip_witness :
  exists st2,
    load codecEnv (storage (persist codecEnv firstLoaded)) = Normal st2
    /\ messages st2 = messages firstLoaded.
Proof.
  apply (@save_after_load_round_trip codecEnv codecEnv None firstLoaded [JNull]);
    try reflexivity.
  discriminate.
Defined.

(** X12: the message a failure leaves to show: the error text of the
    payload; a fixed text when the payload has [null] under [error]; the
    message of the error that rejected an await; and another fixed text
    when what was thrown is not an error. *)
Theorem failure_message_shown (E : Env) (p : Pending) (st : State) :
  (forall o e, p_error o = Some (Some e) ->
     exists st3, handleSubmit_settle E p (Responded (Object_ o)) st = Normal st3
                 /\ error st3 = Some e)
  /\ (forall o, p_error o = Some None ->
      exists st3, handleSubmit_settle E p (Responded (Object_ o)) st = Normal st3
                  /\ error st3 = Some Page.SERVICE_UNAVAILABLE)
  /\ (forall m,
      exists st3 st4,
        handleSubmit_settle E p (FetchRejected (ErrorObject m)) st = Normal st3
        /\ handleSubmit_settle E p (JsonRejected (ErrorObject m)) st = Normal st4
        /\ error st3 = Some m /\ error st4 = Some m)
  /\ (exists st3 st4,
        handleSubmit_settle E p (FetchRejected NotAnError) st = Normal st3
        /\ handleSubmit_settle E p (JsonRejected NotAnError) st = Normal st4
        /\ error st3 = Some SEND_FAILED /\ error st4 = Some SEND_FAILED).
Proof.
  unfold handleSubmit_settle, handleSubmit_try.
  split; [|split; [|split]].
  - intros o e He. rewrite He. simpl. eexists. split; reflexivity.
  - intros o He. rewrite He. simpl. eexists. split; reflexivity.
  - intros m. simpl. eexists. eexists. repeat split.
  - simpl. eexists. eexists. repeat split.
Qed.

Lemma failure_message_shown_witness :
  exists st3,
    handleSubmit_settle demoEnv demoPending boom (typed (lit "x")) = Normal st3
    /\ error st3 = Some (lit "boom").
Proof.
  apply (proj1 (failure_message_shown demoEnv demoPending (typed (lit "x")))).
  reflexivity.
Defined.

End PageExtras.

(** ** Further properties of the gateway *)

Module RouteMoreFacts.

Import Route RouteSpec RouteMore Wire.

Lemma contentSchema_accepts (v : option JSON) (c : jsstring) :
  contentSchema v = inl c -> v = Some (JStr c) /\ c <> [].
Proof.
  unfold contentSchema. destruct v as [[| | |s| |]|]; try discriminate.
  destruct s as [|x s]; simpl; [discriminate|].
  intros H; injection H as <-. split; [reflexivity | discriminate].
Qed.

Lemma messageSchema_accepts (v : JSON) (m : Chat.ChatMessage) :
  messageSchema v = inl m -> Chat.content m <> [].
Proof.
  unfold messageSchema. destruct v as [| | | | |fields]; try discriminate.
  destruct (roleSchema (lookup (lit "role") fields)) as [r|lr];
    destruct (contentSchema (lookup (lit "content") fields)) as [c|lc] eqn:Ec;
    try discriminate.
  intros H; injection H as <-. simpl.
  now destruct (contentSchema_accepts _ Ec).
Qed.

Lemma elementsSchema_accepts (items : list JSON) (ms : list Chat.ChatMessage) :
  elementsSchema items = inl ms ->
  length ms = length items /\ Forall (fun m => Chat.content m <> []) ms.
Proof.
  revert ms. induction items as [|x items IH]; intros ms; simpl.
  - intros H; injection H as <-. split; [reflexivity | constructor].
  - destruct (messageSchema x) as [m|lx] eqn:Ex;
      destruct (elementsSchema items) as [ms'|lrest]; try discriminate.
    intros H; injection H as <-.
    destruct (IH ms' eq_refl) as [Hlen Hall]. split; [simpl; now rewrite Hlen|].
    constructor; [|exact Hall]. now apply messageSchema_accepts with x.
Qed.

Lemma requestSchema_accepts (json : JSON) (ms : list Chat.ChatMessage) :
  requestSchema json = inl ms ->
  ms <> [] /\ Forall (fun m => Chat.content m <> []) ms
  /\ exists fields items,
       json = JObj fields
       /\ lookup (lit "messages") fields = Some (JArr items)
       /\ length items = length ms.
Proof.
  unfold requestSchema. destruct json as [| | | | |fields]; try discriminate.
  unfold messagesSchema.
  destruct (lookup (lit "messages") fields) as [[| | | |items|]|] eqn:El;
    try discriminate.
  destruct items as [|x items]; simpl (length _ <? 1).
  { destruct (elementsSchema []); discriminate. }
  destruct (elementsSchema (x :: items)) as [ms'|l] eqn:E; [|discriminate].
  intros H; injection H as <-.
  destruct (elementsSchema_accepts _ E) as [Hlen Hall].
  split; [destruct ms'; discriminate|]. split; [exact Hall|].
  exists fields, (x :: items). now repeat split.
Qed.

Lemma messageSchema_messageJSON (m : Chat.ChatMessage) :
  messageSchema (messageJSON m)
  = if emptyContent m then inr [too_small CONTENT_EMPTY] else inl m.
Proof. destruct m as [[] [|x c]]; reflexivity. Qed.

Lemma elementsSchema_cons (x : JSON) (rest : list JSON) :
  elementsSchema (x :: rest)
  = match messageSchema x, elementsSchema rest with
    | inl m, inl ms => inl (m :: ms)
    | vx, vrest => inr (issuesOf vx ++ issuesOf vrest)
    end.
Proof. reflexivity. Qed.

Lemma elementsSchema_messageJSON (ms : list Chat.ChatMessage) :
  elementsSchema (map messageJSON ms)
  = match filter emptyContent ms with
    | [] => inl ms
    | l => inr (map (fun _ => too_small CONTENT_EMPTY) l)
    end.
Proof.
  induction ms as [|m ms IH]; [reflexivity|].
  change (map messageJSON (m :: ms)) with (messageJSON m :: map messageJSON ms).
  rewrite elementsSchema_cons, messageSchema_messageJSON, IH.
  simpl filter. destruct (emptyContent m);
    destruct (filter emptyContent ms); reflexivity.
Qed.

Lemma requestSchema_requestJSON (ms : list Chat.ChatMessage) :
  requestSchema (requestJSON ms)
  = match issuesFor ms with
    | [] => inl ms
    | i :: l => inr (i :: l)
    end.
Proof.
  unfold requestJSON, requestSchema.
  change (lookup (lit "messages") [(lit "messages", JArr (map messageJSON ms))])
    with (Some (JArr (map messageJSON ms))).
  unfold messagesSchema, issuesFor. rewrite length_map.
  rewrite elementsSchema_messageJSON.
  destruct ms as [|m ms]; [reflexivity|].
  simpl (length _ <? 1).
  destruct (filter emptyContent (m :: ms)); reflexivity.
Qed.

Lemma filter_emptyContent_nil (ms : list Chat.ChatMessage) :
  Forall (fun m => Chat.content m <> []) ms -> filter emptyContent ms = [].
Proof.
  induction 1 as [|m ms Hm _ IH]; [reflexivity|].
  simpl. unfold emptyContent at 1. destruct (Chat.content m); [now elim Hm|].
  exact IH.
Qed.

Lemma filter_emptyContent_some (ms : list Chat.ChatMessage) (m : Chat.ChatMessage) :
  In m ms -> Chat.content m = [] -> filter emptyContent ms <> [].
Proof.
  intros Hin Hc H.
  assert (Hf : In m (filter emptyContent ms)).
  { apply filter_In. split; [exact Hin|]. unfold emptyContent. now rewrite Hc. }
  rewrite H in Hf. exact Hf.
Qed.

Lemma requestJSON_accepted (ms : list Chat.ChatMessage) :
  ms <> [] -> Forall (fun m => Chat.content m <> []) ms ->
  requestSchema (requestJSON ms) = inl ms.
Proof.
  intros Hne Hall. rewrite requestSchema_requestJSON. unfold issuesFor.
  rewrite filter_emptyContent_nil by exact Hall.
  destruct ms; [now elim Hne | reflexivity].
Qed.

Lemma requestJSON_refused (ms : list Chat.ChatMessage) (m : Chat.ChatMessage) :
  In m ms -> Chat.content m = [] ->
  requestSchema (requestJSON ms)
  = inr (map (fun _ => too_small CONTENT_EMPTY) (filter emptyContent ms)).
Proof.
  intros Hin Hc. rewrite requestSchema_requestJSON. unfold issuesFor.
  pose proof (filter_emptyContent_some ms m Hin Hc) as Hf.
  destruct ms as [|m0 ms]; [now elim Hin|].
  change (length (m0 :: ms) <? 1) with false. rewrite app_nil_l.
  destruct (filter emptyContent (m0 :: ms)); [now elim Hf | reflexivity].
Qed.

End RouteMoreFacts.

Module RouteExtras.

Import Route RouteSpec RouteMore RouteFacts Wire RouteMoreFacts.

(** X13: what the gateway lets through to the workflow is never an empty
    list, and none of its messages has an empty content; it has one message
    for every element of the array under the key [messages] of the body,
    which is an object. *)
Theorem accepted_input_is_well_formed (json : JSON) (ms : list Chat.ChatMessage) :
  requestSchema json = inl ms ->
  ms <> [] /\ Forall (fun m => Chat.content m <> []) ms
  /\ exists fields items,
       json = JObj fields
       /\ lookup (lit "messages") fields = Some (JArr items)
       /\ length items = length ms.
Proof.
  intros H. destruct (requestSchema_accepts _ H) as (Hne & Hall & Hshape).
  split; [exact Hne|]. split; [exact Hall | exact Hshape].
Qed.

Lemma accepted_input_is_well_formed_witness :
  [Chat.mkChatMessage Chat.user (lit "soup?")] <> [].
Proof.
  exact (proj1 (@accepted_input_is_well_formed demoBody _ eq_refl)).
Defined.

(** X14: a list of messages written as the page writes it and read by the
    schema of the gateway comes back as it was exactly when it is not empty
    and no message has an empty content; otherwise the schema reports one
    issue for the empty list, with the text of the source, and one issue for
    every message without content, each with the text of the source. *)
Theorem request_round_trip (ms : list Chat.ChatMessage) :
  (ms <> [] -> Forall (fun m => Chat.content m <> []) ms ->
   requestSchema (requestJSON ms) = inl ms)
  /\ (requestSchema (requestJSON []) = inr [too_small NEED_ONE_MESSAGE])
  /\ (forall m, In m ms -> Chat.content m = [] ->
      requestSchema (requestJSON ms)
      = inr (map (fun _ => too_small CONTENT_EMPTY) (filter emptyContent ms)))
  /\ (forall ms', requestSchema (requestJSON ms) = inl ms' -> ms' = ms).
Proof.
  split; [|split; [|split]].
  - intros Hne Hall. rewrite requestSchema_requestJSON. unfold issuesFor.
    rewrite filter_emptyContent_nil by exact Hall.
    destruct ms; [now elim Hne | reflexivity].
  - reflexivity.
  - intros m Hin Hc. rewrite requestSchema_requestJSON. unfold issuesFor.
    pose proof (filter_emptyContent_some ms m Hin Hc) as Hf.
    destruct ms as [|m0 ms]; [now elim Hin|].
    change (length (m0 :: ms) <? 1) with false. rewrite app_nil_l.
    destruct (filter emptyContent (m0 :: ms)); [now elim Hf | reflexivity].
  - intros ms'. rewrite requestSchema_requestJSON.
    destruct (issuesFor ms); [|discriminate].
    now intros H; injection H as <-.
Qed.

Lemma request_round_trip_witness :
  requestSchema (requestJSON [Chat.mkChatMessage Chat.user (lit "soup?")])
  = inl [Chat.mkChatMessage Chat.user (lit "soup?")].
Proof.
  apply (proj1 (request_round_trip [Chat.mkChatMessage Chat.user (lit "soup?")])).
  - discriminate.
  - repeat constructor. discriminate.
Defined.

(** X15: the status of the response tells the envelope: it is 200, 400 or
    500; it is 200 exactly when the body has no [error]; it is 400 exactly
    when a ZodError reaches the [catch] clause, that is when the body of
    the request was read and the schema refused it, or when a collaborator
    itself threw a ZodError; and the key [status] comes only with 500. *)
Theorem status_tells_envelope (d : Deps) :
  let r := POST d in
  (httpStatus r = 200 \/ httpStatus r = 400 \/ httpStatus r = 500)
  /\ (httpStatus r = 200 <-> b_error (body r) = None)
  /\ (httpStatus r = 400 <->
      (exists json issues,
          req_json d = inr json /\ requestSchema json = inr issues)
      \/ (exists issues, collaboratorThrows d = Some (ZodError issues)))
  /\ (b_status (body r) <> None -> httpStatus r = 500).
Proof.
  unfold POST, POST_try, collaboratorThrows.
  assert (Hcatch : forall c : Caught,
            (httpStatus (POST_catch d c) = 200
             \/ httpStatus (POST_catch d c) = 400
             \/ httpStatus (POST_catch d c) = 500)
            /\ (httpStatus (POST_catch d c) = 200 <->
                b_error (body (POST_catch d c)) = None)
            /\ (httpStatus (POST_catch d c) = 400 <->
                exists issues, Some c = Some (ZodError issues))
            /\ (b_status (body (POST_catch d c)) <> None ->
                httpStatus (POST_catch d c) = 500)).
  { intros [issues|e]; simpl.
    - repeat split; try tauto; try discriminate;
        try (intros _; now exists issues); try (intros H; now elim H).
    - repeat split; try tauto; try discriminate.
      all: intros (issues & H); discriminate H. }
  destruct (req_json d) as [c|json]; simpl.
  { destruct (Hcatch c) as (H1 & H2 & H3 & H4).
    split; [exact H1|]. split; [exact H2|]. split; [|exact H4].
    rewrite H3. split; [intros H; now right|].
    intros [(j & i & H & _)|H]; [discriminate H | exact H]. }
  destruct (requestSchema json) as [input|issues] eqn:Ev; simpl.
  2:{ repeat split; try tauto; try discriminate.
      intros _. left. exists json, issues. now split. }
  assert (Hno : ~ exists j i, @inr Caught JSON json = inr j
                              /\ requestSchema j = inr i).
  { intros (j & i & Hj & Hi). injection Hj as <-. rewrite Ev in Hi.
    discriminate. }
  assert (Hnone : ~ exists issues, @None Caught = Some (ZodError issues)).
  { intros (issues & H). discriminate H. }
  destruct (recipeChatWorkflow d) as [workflow|]; simpl.
  2:{ repeat split; try tauto; try discriminate. }
  destruct (createRunAsync workflow) as [c|run]; simpl.
  { destruct (Hcatch c) as (H1 & H2 & H3 & H4).
    split; [exact H1|]. split; [exact H2|]. split; [|exact H4].
    rewrite H3. split; [intros H; now right|].
    intros [H|H]; [now elim Hno | exact H]. }
  destruct (start run input) as [c|[result|status]]; simpl.
  - destruct (Hcatch c) as (H1 & H2 & H3 & H4).
    split; [exact H1|]. split; [exact H2|]. split; [|exact H4].
    rewrite H3. split; [intros H; now right|].
    intros [H|H]; [now elim Hno | exact H].
  - repeat split; try tauto; try discriminate.
  - repeat split; try tauto; try discriminate.
Qed.

Lemma status_tells_envelope_witness :
  httpStatus (POST (mkDeps (inr (JObj [])) None (fun _ => lit "Required"))) = 400.
Proof.
  apply (proj2 (proj1 (proj2 (proj2
           (status_tells_envelope
              (mkDeps (inr (JObj [])) None (fun _ => lit "Required"))))))).
  left. exists (JObj []), [invalid_type ExpArray None]. split; reflexivity.
Defined.

(** X16: what a collaborator throws reaches the caller only when it is a
    ZodError: when reading the body, creating the run or starting it throws
    anything else, the response is the same fixed one, of status 500,
    whatever was thrown; when it throws a ZodError, the response has status
    400 and the messages of its issues, joined by a comma and a space, as
    error text. *)
Theorem thrown_errors_answered (d : Deps) :
  (forall e, collaboratorThrows d = Some (Other e) -> POST d = unavailable)
  /\ (forall issues,
        collaboratorThrows d = Some (ZodError issues) ->
        POST d
        = mkResponse
            (errorBody (join (lit ", ")
                          (map (issueMessage (defaultMessage d)) issues))
                       None)
            400).
Proof.
  unfold POST, POST_try, collaboratorThrows.
  destruct (req_json d) as [c|json].
  { split; intros x H; injection H as ->; reflexivity. }
  destruct (requestSchema json) as [input|issues0].
  2:{ split; intros x H; discriminate H. }
  destruct (recipeChatWorkflow d) as [workflow|].
  2:{ split; intros x H; discriminate H. }
  destruct (createRunAsync workflow) as [c|run].
  { split; intros x H; injection H as ->; reflexivity. }
  destruct (start run input) as [c|ex].
  - split; intros x H; injection H as ->; reflexivity.
  - split; intros x H; discriminate H.
Qed.

Lemma thrown_errors_answered_witness :
  POST (mkDeps (inl (Other (ErrorObject (lit "Unexpected token")))) None
               (fun _ => lit "Required"))
  = unavailable
  /\ POST (mkDeps (inr demoBody) (Some rejecting) (fun _ => lit "Required"))
     = mkResponse (errorBody [] None) 400.
Proof.
  split.
  - apply (proj1 (thrown_errors_answered
                    (mkDeps (inl (Other (ErrorObject (lit "Unexpected token"))))
                            None (fun _ => lit "Required")))
             (ErrorObject (lit "Unexpected token"))).
    reflexivity.
  - apply (proj2 (thrown_errors_answered
                    (mkDeps (inr demoBody) (Some rejecting)
                            (fun _ => lit "Required")))
             []).
    reflexivity.
Defined.

End RouteExtras.

(** ** The page and the gateway together *)

Module TurnFacts.

Import Page PageSpec PageFacts Route RouteSpec RouteMore RouteMoreFacts Wire.

Lemma POST_refused (d : Deps) (json : JSON) (issues : list ZodIssue) :
  req_json d = inr json -> requestSchema json = inr issues ->
  POST d
  = mkResponse
      (errorBody (join (lit ", ") (map (issueMessage (defaultMessage d)) issues))
                 None)
      400.
Proof. intros Hj Hv. unfold POST, POST_try. now rewrite Hj, Hv. Qed.

Lemma POST_succeeded (d : Deps) (json : JSON) (input : list Chat.ChatMessage)
    (workflow : Registered) (run : Run) (result : Chat.ChatCompletion) :
  req_json d = inr json -> requestSchema json = inl input ->
  recipeChatWorkflow d = Some workflow ->
  createRunAsync workflow = inr run ->
  start run input = inr (Succeeded result) ->
  POST d
  = mkResponse
      (mkBody None None (Some (Chat.message result)) (Chat.usage result)
              (Some (nullish (Chat.runId result) (runId run))))
      200.
Proof.
  intros Hj Hv Hw Hr Hs. unfold POST, POST_try.
  now rewrite Hj, Hv, Hw, Hr, Hs.
Qed.

(** Every response is an error body with a status that is not 200, or a
    body without error with status 200. *)
Lemma POST_two_ways (d : Deps) :
  (exists e status code,
      POST d = mkResponse (errorBody e status) code /\ code <> 200)
  \/ (exists m u r, POST d = mkResponse (mkBody None None (Some m) u (Some r)) 200).
Proof.
  assert (Hcatch : forall c : Caught,
            exists e status code,
              POST_catch d c = mkResponse (errorBody e status) code
              /\ code <> 200).
  { intros [issues|e]; simpl; eexists; eexists; eexists;
      (split; [reflexivity | discriminate]). }
  unfold POST, POST_try.
  destruct (req_json d) as [c|json]; [left; apply Hcatch|].
  destruct (requestSchema json) as [input|issues]; [|left; apply Hcatch].
  destruct (recipeChatWorkflow d) as [workflow|].
  2:{ left. eexists; eexists; eexists. split; [reflexivity | discriminate]. }
  destruct (createRunAsync workflow) as [c|run]; [left; apply Hcatch|].
  destruct (start run input) as [c|[result|status]]; [left; apply Hcatch| |].
  - right. eexists; eexists; eexists. reflexivity.
  - left. eexists; eexists; eexists. split; [reflexivity | discriminate].
Qed.

Lemma requestMessages_content (p : Pending) :
  Forall (fun m => content m <> []) (optimisticMessages p) ->
  Forall (fun m => Chat.content m <> []) (requestMessages p).
Proof.
  unfold requestMessages. intros H. apply Forall_map.
  eapply Forall_impl; [|exact H]. trivial.
Qed.

End TurnFacts.

Module TurnExtras.

Import Page PageSpec PageFacts Route RouteSpec RouteMore RouteMoreFacts Wire.
Import TurnSpec TurnFacts.

(** X17: the page does not look at the status of the response, only at
    the key [error], and this tells the same: a response of status 200 is
    taken for a success, and a response of another status is taken for a
    failure and leaves the error text of the gateway to show. *)
Theorem page_reads_envelope (E : Env) (p : Pending) (st : State) (d : Deps) :
  (httpStatus (POST d) = 200 -> fails (answer (POST d)) = false)
  /\ (httpStatus (POST d) <> 200 ->
      fails (answer (POST d)) = true
      /\ exists e st3,
           b_error (body (POST d)) = Some e
           /\ handleSubmit_settle E p (answer (POST d)) st = Normal st3
           /\ error st3 = Some e).
Proof.
  destruct (POST_two_ways d) as [(e & status & code & -> & Hcode)
                                |(m & u & r & ->)]; simpl.
  - split; [intros H; now elim Hcode|].
    intros _. split; [reflexivity|].
    exists e. eexists. split; [reflexivity|]. split; reflexivity.
  - split; [reflexivity|]. intros H. now elim H.
Qed.

Lemma page_reads_envelope_witness :
  fails (answer (POST (mkDeps (inr (JObj [])) None (fun _ => lit "Required"))))
  = true.
Proof.
  apply (proj2 (page_reads_envelope demoEnv demoPending (typed (lit "x"))
                  (mkDeps (inr (JObj [])) None (fun _ => lit "Required")))).
  discriminate.
Defined.

(** X18: a whole turn that succeeds: when no message of the conversation
    has an empty content, the request of the page passes the schema of the
    gateway, and when the run of the workflow then succeeds with a result,
    the conversation ends as it was, then the user message, then a reply
    with the message of the result, its usage, and as identifier the
    [runId] of the result or, without one, the identifier of the run. *)
Theorem turn_succeeds (E : Env) (st st2 : State) (p : Pending)
    (workflow : Registered) (dm : ZodIssue -> jsstring) (run : Run)
    (result : Chat.ChatCompletion) :
  handleSubmit_start E st = (st2, Some p) ->
  Forall (fun m => content m <> []) (messages st) ->
  createRunAsync workflow = inr run ->
  start run (requestMessages p) = inr (Succeeded result) ->
  exists st3,
    handleSubmit_settle E p (answer (serve (Some workflow) dm p)) st2 = Normal st3
    /\ messages st3
       = messages st
         ++ [userMessage p;
             mkUIMessage (nullish (Chat.runId result) (runId run))
                         (Chat.role (Chat.message result))
                         (Chat.content (Chat.message result))
                         (Chat.usage result)]
    /\ isLoading st3 = false
    /\ error st3 = None.
Proof.
  intros Hstart Hall Hrun Hres.
  destruct (handleSubmit_start_sent E st Hstart)
    as (Hu & Hopt & _ & _ & Herr & _ & _).
  assert (Hsent : Forall (fun m => Chat.content m <> []) (requestMessages p)).
  { apply requestMessages_content. rewrite Hopt. apply Forall_app.
    split; [exact Hall|]. constructor; [|constructor].
    rewrite Hu. simpl. unfold handleSubmit_start in Hstart.
    destruct (trim (input st)); [discriminate Hstart | discriminate]. }
  assert (Hne : requestMessages p <> []).
  { unfold requestMessages. rewrite Hopt, map_app.
    intros H. apply app_eq_nil in H as [_ H]. discriminate H. }
  unfold serve.
  rewrite (@POST_succeeded
             (mkDeps (inr (requestJSON (requestMessages p))) (Some workflow) dm)
             (requestJSON (requestMessages p))
             (requestMessages p) workflow run result eq_refl
             (requestJSON_accepted Hne Hsent)
             eq_refl Hrun Hres).
  unfold answer, payloadOf, handleSubmit_settle, handleSubmit_try. simpl.
  eexists. split; [reflexivity|]. simpl.
  rewrite Hopt, <- app_assoc. repeat split. exact Herr.
Qed.

Lemma turn_succeeds_witness :
  exists st3,
    handleSubmit_settle demoEnv demoPending
      (answer (serve (Some (succeeding (lit "run-1") stirFryResult))
                     (fun _ => lit "Required") demoPending))
      (fst (handleSubmit_start demoEnv (typed (lit " hi ")))) = Normal st3
    /\ messages st3
       = messages (typed (lit " hi "))
         ++ [userMessage demoPending;
             mkUIMessage (lit "r1") Chat.assistant (lit "Try stir-fry") None]
    /\ isLoading st3 = false
    /\ error st3 = None.
Proof.
  apply (@turn_succeeds demoEnv (typed (lit " hi "))
           (fst (handleSubmit_start demoEnv (typed (lit " hi "))))
           demoPending (succeeding (lit "run-1") stirFryResult)
           (fun _ => lit "Required")
           (mkRun (lit "run-1") (fun _ => inr (Succeeded stirFryResult)))
           stirFryResult).
  - reflexivity.
  - repeat constructor. discriminate.
  - reflexivity.
  - reflexivity.
Defined.

(** X19: a message without content stops the conversation: when the
    conversation holds one (the reply to an earlier turn can be one), the
    request of every later submission is refused by the schema of the
    gateway with status 400, whatever the workflow would do, and the page
    rolls the submission back and shows the text of the schema, once for
    every message without content. *)
Theorem empty_content_blocks_turn (E : Env) (st st2 : State) (p : Pending)
    (m : UIMessage) (workflow : option Registered) (dm : ZodIssue -> jsstring) :
  handleSubmit_start E st = (st2, Some p) ->
  In m (messages st) -> content m = [] ->
  httpStatus (serve workflow dm p) = 400
  /\ exists st3,
       handleSubmit_settle E p (answer (serve workflow dm p)) st2 = Normal st3
       /\ error st3
          = Some (join (lit ", ")
                    (map (fun _ => CONTENT_EMPTY)
                         (filter emptyContent (requestMessages p))))
       /\ isLoading st3 = false
       /\ (~ In (randomId E (drawn st)) (map id (messages st)) ->
           messages st3 = messages st).
Proof.
  intros Hstart Hin Hc.
  destruct (handleSubmit_start_sent E st Hstart)
    as (Hu & Hopt & Hm2 & _ & _ & _ & _).
  assert (Hsent : In (Chat.mkChatMessage (role m) (content m)) (requestMessages p)).
  { unfold requestMessages. rewrite Hopt.
    apply (in_map (fun m0 => Chat.mkChatMessage (role m0) (content m0))).
    apply in_or_app. now left. }
  unfold serve.
  rewrite (@POST_refused
             (mkDeps (inr (requestJSON (requestMessages p))) workflow dm)
             (requestJSON (requestMessages p)) _ eq_refl
             (requestJSON_refused _ _ Hsent Hc)).
  simpl defaultMessage. rewrite map_map. simpl.
  split; [reflexivity|].
  eexists. split; [reflexivity|]. simpl.
  split; [reflexivity|]. split; [reflexivity|].
  intros Hfresh. rewrite Hm2, Hopt. apply filter_rollback. now rewrite Hu.
Qed.

Lemma empty_content_blocks_turn_witness :
  httpStatus (serve (Some (succeeding (lit "run-2") stirFryResult))
                    (fun _ => lit "Required") silencedPending) = 400.
Proof.
  apply (@empty_content_blocks_turn demoEnv silenced
           (fst (handleSubmit_start demoEnv silenced)) silencedPending
           (mkUIMessage (lit "r2") Chat.assistant [] None)).
  - reflexivity.
  - right. right. left. reflexivity.
  - reflexivity.
Defined.

End TurnExtras.

(** ** The rendering *)

Module RenderFacts.

Import Render RenderSpec.

Lemma lit_cons (c : ascii) (s : string) :
  lit (String c s) = N_of_ascii c :: lit s.
Proof. reflexivity. Qed.

Lemma lit_inj (s1 s2 : string) : lit s1 = lit s2 -> s1 = s2.
Proof.
  revert s2. induction s1 as [|c s1 IH]; intros [|d s2]; try discriminate.
  - reflexivity.
  - rewrite !lit_cons. intros H. injection H as Hc Hs.
    f_equal; [|now apply IH].
    rewrite <- (ascii_N_embedding c), <- (ascii_N_embedding d).
    now rewrite Hc.
Qed.

Lemma decimal_inj (i j : nat) : decimal i = decimal j -> i = j.
Proof.
  unfold decimal. intros H. apply lit_inj in H.
  apply DecimalNat.Unsigned.to_uint_inj.
  apply (f_equal DecimalString.NilEmpty.uint_of_string) in H.
  rewrite !DecimalString.NilEmpty.usu in H. now injection H.
Qed.

Lemma digits_of_uint (d : Decimal.uint) :
  forallb is_digit (lit (DecimalString.NilEmpty.string_of_uint d)) = true.
Proof. induction d; simpl; auto. Qed.

Lemma decimal_digits (n : nat) : forallb is_digit (decimal n) = true.
Proof. apply digits_of_uint. Qed.

Lemma takeWhile_app_stop (p : char -> bool) (a x : jsstring) (c : char) :
  forallb p a = true -> p c = false -> takeWhile p (a ++ c :: x) = a.
Proof.
  intros Ha Hc. induction a as [|y a IH]; simpl.
  - now rewrite Hc.
  - simpl in Ha. apply andb_prop in Ha as [Hy Ha]. rewrite Hy.
    now rewrite IH.
Qed.

(** The index is read back from a key that ends with a dash and the
    index. *)
Lemma trailingDigits_key (q : jsstring) (n : nat) :
  trailingDigits ((q ++ [DASH]) ++ decimal n) = decimal n.
Proof.
  unfold trailingDigits.
  rewrite rev_app_distr, rev_app_distr. simpl rev at 2. simpl app at 2.
  rewrite takeWhile_app_stop.
  - apply rev_involutive.
  - rewrite TrimFacts.forallb_rev. apply decimal_digits.
  - reflexivity.
Qed.

Lemma renderSegment_key (seg : MessageSegment) (index : nat) :
  trailingDigits (key (renderSegment seg index)) = decimal index.
Proof.
  destruct seg; simpl key.
  - apply (trailingDigits_key (lit "heading")).
  - apply (trailingDigits_key (lit "paragraph")).
  - apply (trailingDigits_key (lit "list")).
  - apply (trailingDigits_key (lit "divider")).
Qed.

Section Keys.

Variables A B : Type.
Variable f : A -> nat -> B.
Variable keyOf : B -> jsstring.
Hypothesis index_read :
  forall x i, trailingDigits (keyOf (f x i)) = decimal i.

Lemma mapi_keys_from (l : list A) (i : nat) (k : jsstring) :
  In k (map keyOf (mapi_from f i l)) ->
  exists j, i <= j /\ trailingDigits k = decimal j.
Proof.
  revert i. induction l as [|x l IH]; intros i; simpl; [tauto|].
  intros [<-|Hin].
  - exists i. split; [lia | apply index_read].
  - destruct (IH (S i) Hin) as (j & Hj & Hk). exists j. split; [lia | exact Hk].
Qed.

Lemma mapi_keys_NoDup (l : list A) (i : nat) :
  NoDup (map keyOf (mapi_from f i l)).
Proof.
  revert i. induction l as [|x l IH]; intros i; simpl; constructor.
  - intros Hin. destruct (mapi_keys_from l (S i) _ Hin) as (j & Hj & Hk).
    rewrite index_read in Hk. apply decimal_inj in Hk. lia.
  - apply IH.
Qed.

Lemma length_mapi_from (l : list A) (i : nat) :
  length (mapi_from f i l) = length l.
Proof.
  revert i. induction l as [|x l IH]; intros i; simpl; [reflexivity|].
  now rewrite IH.
Qed.

End Keys.

Lemma mapi_li_text (pre : nat -> jsstring) (items : list jsstring) (i : nat) :
  map li_text (mapi_from (fun item itemIndex => mkLi (pre itemIndex) item) i items)
  = items.
Proof.
  revert i. induction items as [|x items IH]; intros i; simpl; [reflexivity|].
  now rewrite IH.
Qed.

Lemma shown_mapi_from (segs : list MessageSegment) (i : nat) :
  map shown (mapi_from renderSegment i segs) = map held segs.
Proof.
  revert i. induction segs as [|seg segs IH]; intros i; simpl; [reflexivity|].
  rewrite IH. f_equal. destruct seg; simpl; try reflexivity.
  apply mapi_li_text.
Qed.

End RenderFacts.

Module RenderExtras.

Import Render RenderSpec RenderFacts.

(** X20: rendering gives one element for each segment, in order, showing
    the texts of the segment and nothing else; the keys of the elements are
    pairwise different, and so are the keys of the items within each
    list. *)
Theorem render_keys_and_texts (segs : list MessageSegment) :
  length (renderMessageSegments segs) = length segs
  /\ map shown (renderMessageSegments segs) = map held segs
  /\ NoDup (map key (renderMessageSegments segs))
  /\ (forall e, In e (renderMessageSegments segs) -> NoDup (itemKeys e)).
Proof.
  unfold renderMessageSegments, mapi.
  split; [apply length_mapi_from|].
  split; [apply shown_mapi_from|].
  split; [apply mapi_keys_NoDup, renderSegment_key|].
  generalize 0. induction segs as [|seg segs IH]; intros i e; simpl; [tauto|].
  intros [<-|Hin]; [|now apply (IH (S i))].
  destruct seg as [| |items|]; simpl; try constructor.
  unfold mapi.
  apply (mapi_keys_NoDup
           (fun item itemIndex =>
              mkLi (lit "list-" ++ decimal i ++ lit "-" ++ decimal itemIndex) item)
           li_key).
  intros x j.
  change (trailingDigits (lit "list-" ++ decimal i ++ lit "-" ++ decimal j)
          = decimal j).
  replace (lit "list-" ++ decimal i ++ lit "-" ++ decimal j)
    with (((lit "list-" ++ decimal i) ++ [DASH]) ++ decimal j)
    by (now rewrite <- !app_assoc).
  apply (trailingDigits_key (lit "list-" ++ decimal i)).
Qed.

Lemma render_keys_and_texts_witness :
  NoDup (itemKeys (Ul (lit "list-1") (lit "list-disc space-y-1 pl-5 text-sm")
                      [mkLi (lit "list-1-0") (lit "a");
                       mkLi (lit "list-1-1") (lit "b")])).
Proof.
  apply (proj2 (proj2 (proj2 (render_keys_and_texts
                                (parseMessageContent SegmenterSpec.sample))))).
  vm_compute. right. left. reflexivity.
Defined.

End RenderExtras.

(** ** The schemas of the workflow *)

Module WorkflowExtras.

Import Workflow Route RouteMore RouteMoreFacts Wire WorkflowSchemas WorkflowSpec.

Lemma chatMessageSchema_messageJSON (m : Chat.ChatMessage) :
  Chat.content m <> [] -> chatMessageSchema (Some (messageJSON m)) = inl m.
Proof.
  destruct m as [[] [|x c]]; intros H; try reflexivity; now elim H.
Qed.

Lemma chatMessages_cons (x : JSON) (rest : list JSON) :
  chatMessages (x :: rest)
  = match chatMessageSchema (Some x), chatMessages rest with
    | inl m, inl ms => inl (m :: ms)
    | vx, vrest => inr (issuesOf vx ++ issuesOf vrest)
    end.
Proof. reflexivity. Qed.

Lemma chatMessages_messageJSON (ms : list Chat.ChatMessage) :
  Forall (fun m => Chat.content m <> []) ms ->
  chatMessages (map messageJSON ms) = inl ms.
Proof.
  induction 1 as [|m ms Hm _ IH]; [reflexivity|].
  change (map messageJSON (m :: ms)) with (messageJSON m :: map messageJSON ms).
  now rewrite chatMessages_cons, chatMessageSchema_messageJSON, IH.
Qed.

(** X21: the step's own output schema accepts what [execute] returns
    exactly when the agent gave a text that is not empty: then the schema
    keeps the message and the [runId] (and drops the usage); when the agent
    gave no text, or the empty one, the content is the empty string and
    the schema reports the issue of the empty content. *)
Theorem output_schema_needs_text
    (generate : list MessageInput -> Thrown + AgentResult)
    (messages : list Chat.ChatMessage) (result : AgentResult) :
  generate (agentMessages messages) = inr result ->
  exists out,
    execute generate messages = inr out
    /\ (forall t, text result = Some t -> t <> [] ->
        workflowOutputSchema (outputJSON out)
        = inl (Chat.message out, Chat.runId out))
    /\ (text result = None \/ text result = Some [] ->
        workflowOutputSchema (outputJSON out) = inr [too_small CONTENT_EMPTY]).
Proof.
  intros H. unfold execute. rewrite H. eexists. split; [reflexivity|].
  unfold outputJSON. simpl Chat.message. simpl Chat.usage. simpl Chat.runId.
  split.
  - intros t -> Ht. destruct t as [|c t]; [now elim Ht|].
    destruct (usage result), (deriveRunId result); reflexivity.
  - intros [->| ->];
      destruct (usage result), (deriveRunId result); reflexivity.
Qed.

Lemma output_schema_needs_text_witness :
  exists out,
    execute demoAgent [Chat.mkChatMessage Chat.user (lit "soup?")] = inr out
    /\ workflowOutputSchema (outputJSON out) = inr [too_small CONTENT_EMPTY].
Proof.
  destruct (@output_schema_needs_text demoAgent
              [Chat.mkChatMessage Chat.user (lit "soup?")] _ eq_refl)
    as (out & Hout & _ & Hnone).
  exists out. split; [exact Hout|]. apply Hnone. now left.
Defined.

(** X22: what the schema of the gateway accepts, the input schema of the
    workflow and the one of the step accept too, and they read the same
    messages. *)
Theorem gateway_input_fits_workflow (json : JSON) (ms : list Chat.ChatMessage) :
  requestSchema json = inl ms ->
  workflowInputSchema (requestJSON ms) = inl ms
  /\ stepInputSchema (requestJSON ms) = inl ms.
Proof.
  intros H. destruct (requestSchema_accepts _ H) as (Hne & Hall & _).
  unfold workflowInputSchema, stepInputSchema, requestJSON.
  change (lookup (lit "messages") [(lit "messages", JArr (map messageJSON ms))])
    with (Some (JArr (map messageJSON ms))).
  cbv iota beta. rewrite length_map, chatMessages_messageJSON by exact Hall.
  split; [|reflexivity].
  destruct ms; [now elim Hne | reflexivity].
Qed.

Lemma gateway_input_fits_workflow_witness :
  workflowInputSchema (requestJSON [Chat.mkChatMessage Chat.user (lit "soup?")])
  = inl [Chat.mkChatMessage Chat.user (lit "soup?")].
Proof.
  exact (proj1 (@gateway_input_fits_workflow RouteSpec.demoBody _ eq_refl)).
Defined.

End WorkflowExtras.
